(** * interppotential_calc_potential.c: evaluating a composite potential

    A shallow embedding of the two entry points of
    [galpy/potential_src/interppotential_c_ext/interppotential_calc_potential.c],
    [calc_potential] (grid mode) and [eval_potential] (paired mode), and
    the properties of them that the specification states.

    Conventions of the embedding.
    - A C [double] is a binary64 value of the Standard Library's
      [SpecFloat] ([spec_float] with precision 53 and [emax] 1024).
    - A C [int] is a [Z].  The only arithmetic the source does on ints is
      the loop increments [ii++], [jj++] below a bound that is itself an
      int, so nothing wraps.
    - A pointer argument ([R], [z], [pot_type], [pot_args], [out]) is the
      memory seen from that pointer, a function from the element index to
      the element; [err] points to one int cell.  The six are distinct
      objects of the caller.
    - The entry array [actionAngleArgs] is a block of [npot] cells that
      the function itself allocates: a list, read with a bounds check.
    - Calls to the allocator and to the release functions are recorded
      in a trace. *)

From Stdlib Require Import ZArith List Lia Bool.
From Stdlib Require Import SpecFloat.
From stdpp Require Import base list.
Import ListNotations.
Local Open Scope Z_scope.

(** ** Data model *)

Definition double : Type := spec_float.

(** [+] on doubles: binary64 addition, round to nearest even. *)
Definition dadd : double -> double -> double := SFadd 53 1024.

(** The literal [0.]. *)
Definition dzero : double := S754_zero false.

(** A zero of either sign. *)
Definition is_zero (x : double) : bool :=
  match x with S754_zero _ => true | _ => false end.

(** The identity of an auxiliary structure; a null pointer is [None]. *)
Definition handle : Type := positive.

(** Modelled from the spec: [struct potentialArg] is declared in
    [galpy_potentials.h], which is not part of the sources at hand.  The
    source reads its fields [i2d] and [acc]; section 3 of the
    specification lists the rest: a type tag, the parsed parameters,
    optionally an owned spline/table structure and optionally an owned
    interpolation accelerator. *)
Record potentialArg : Type := mkArg {
  ptype : Z;
  args : list double;
  i2d : option handle;
  acc : option handle
}.

(** The calls the two entry points make to the allocator and to the
    release functions, in program order. *)
Inductive event : Type :=
| Malloc_row (n : Z)
| Malloc_args (n : Z)
| Interp_2d_alloc (h : handle)
| Accel_alloc (h : handle)
| Interp_2d_free (h : handle)
| Accel_free (h : handle)
| Free_args
| Free_row.

(** The caller's buffers, the status cell, and the allocator. *)
Record state : Type := mkState {
  arr_R : Z -> double;
  arr_z : Z -> double;
  arr_pot_type : Z -> Z;
  arr_pot_args : Z -> double;
  arr_out : Z -> double;
  cell_err : Z;
  next_handle : handle;
  trace : list event
}.

Definition set_out (f : Z -> double) (s : state) : state :=
  mkState (arr_R s) (arr_z s) (arr_pot_type s) (arr_pot_args s) f
          (cell_err s) (next_handle s) (trace s).

Definition set_next_handle (h : handle) (s : state) : state :=
  mkState (arr_R s) (arr_z s) (arr_pot_type s) (arr_pot_args s) (arr_out s)
          (cell_err s) h (trace s).

Definition set_trace (t : list event) (s : state) : state :=
  mkState (arr_R s) (arr_z s) (arr_pot_type s) (arr_pot_args s) (arr_out s)
          (cell_err s) (next_handle s) t.

(** [*(p+k) = v] on a buffer. *)
Definition upd {A : Type} (f : Z -> A) (k : Z) (v : A) : Z -> A :=
  fun x => if Z.eqb x k then v else f x.

(** ** A state monad with an out-of-bounds outcome

    A read outside the entry array stops the run; the state reached so
    far is kept. *)

Inductive result (A : Type) : Type :=
| Ok (a : A)
| OutOfBounds.
Arguments Ok {A} a.
Arguments OutOfBounds {A}.

Definition M (A : Type) : Type := state -> result A * state.

Definition ret {A : Type} (a : A) : M A := fun s => (Ok a, s).

Definition bind {A B : Type} (m : M A) (f : A -> M B) : M B :=
  fun s =>
    match m s with
    | (Ok a, s') => f a s'
    | (OutOfBounds, s') => (OutOfBounds, s')
    end.

Declare Scope pot_scope.
Delimit Scope pot_scope with pot.
Notation "'do' x <- m ; k" := (bind m (fun x => k))
  (at level 10, x name, m at level 100, k at level 200) : pot_scope.
Notation "'run' m ; k" := (bind m (fun _ => k))
  (at level 10, m at level 100, k at level 200) : pot_scope.
Local Open Scope pot_scope.

Definition gets {A : Type} (f : state -> A) : M A := fun s => (Ok (f s), s).

Definition emit (e : event) : M unit :=
  fun s => (Ok tt, set_trace (trace s ++ [e]) s).

(** [*(out+k) = v]. *)
Definition store_out (k : Z) (v : double) : M unit :=
  fun s => (Ok tt, set_out (upd (arr_out s) k v) s).

(** A fresh handle from the allocator of auxiliary structures. *)
Definition fresh_handle : M handle :=
  fun s => (Ok (next_handle s), set_next_handle (Pos.succ (next_handle s)) s).

(** [for (i = i0; ...; i++) a = body i a], [n] iterations. *)
Fixpoint for_loop {A : Type} (n : nat) (i : Z) (body : Z -> A -> M A) (a : A) : M A :=
  match n with
  | O => ret a
  | S n' => do a' <- body i a ; for_loop n' (i + 1) body a'
  end.

(** [for (i = 0; i < bound; i++)]: no iteration when [bound <= 0]. *)
Definition for_upto {A : Type} (bound : Z) (body : Z -> A -> M A) (a : A) : M A :=
  for_loop (Z.to_nat bound) 0 body a.

(** [cells[k]] with the bounds check of the embedding. *)
Definition entry (cells : list potentialArg) (k : nat) : M potentialArg :=
  fun s =>
    match cells !! k with
    | Some e => (Ok e, s)
    | None => (OutOfBounds, s)
    end.

(** The release functions of the interpolation library and of libc. *)
Definition interp_2d_free (h : handle) : M unit := emit (Interp_2d_free h).
Definition gsl_interp_accel_free (h : handle) : M unit := emit (Accel_free h).
Definition free_args : M unit := emit Free_args.
Definition free_row : M unit := emit Free_row.

(** Modelled from the spec: the per-type constructors are part of the
    potentials library.  Sections 3 and 4.1: the type code implies the
    number of parameters taken from the flat buffer, and the constructor
    may allocate a spline/table structure and an accelerator. *)
Record ctor : Type := mkCtor {
  c_nargs : nat;
  c_table : bool;
  c_accel : bool
}.

(** ** The collaborators

    Modelled from the spec: the per-type constructors and the per-type
    evaluation functions (sections 4.1 and 4.2) live in the potentials
    library; the embedding is parametric in them.
    [pot_ctor t] is [None] for a type code that has no constructor.
    [potentialEval] gets the entry's tag and parameters: the table and
    the accelerator are caches built from them.  [uninit_arg] and
    [uninit_row] stand for what the cells freshly allocated by one call
    hold: C leaves it indeterminate, so the statements about one call
    hold for every choice of the two, and the statements that compare
    two calls give each call its own. *)
Class Externals : Type := mkExternals {
  pot_ctor : Z -> option ctor;
  potentialEval : Z -> list double -> double -> double -> double;
  uninit_arg : potentialArg;
  uninit_row : Z -> double
}.

Section Potentials.

Context {ext : Externals}.

(** [row = malloc (nz * sizeof (double))]. *)
Definition malloc_row (nz : Z) : M (Z -> double) :=
  run emit (Malloc_row nz) ; ret uninit_row.

(** [actionAngleArgs = malloc (npot * sizeof (struct potentialArg))]. *)
Definition malloc_args (npot : Z) : M (list potentialArg) :=
  run emit (Malloc_args npot) ; ret (replicate (Z.to_nat npot) uninit_arg).

Definition interp_2d_alloc : M handle :=
  do h <- fresh_handle ; run emit (Interp_2d_alloc h) ; ret h.

Definition gsl_interp_accel_alloc : M handle :=
  do h <- fresh_handle ; run emit (Accel_alloc h) ; ret h.

(** [pot_args[cursor .. cursor + n - 1]]. *)
Definition slice (f : Z -> double) (cursor : Z) (n : nat) : list double :=
  map (fun i => f (cursor + Z.of_nat i)) (seq 0 n).

Definition alloc_if (b : bool) (alloc : M handle) : M (option handle) :=
  if b then do h <- alloc ; ret (Some h) else ret None.

(** Modelled from the spec: [parse_actionAngleArgs] is defined in the
    potentials library, not in the sources at hand.  Section 4.1: for
    each descriptor in order, dispatch on the type code to the per-type
    constructor, which takes its parameters from the flat buffer (their
    number implied by the type) and may allocate a table and an
    accelerator, recorded as owned by that entry; an unrecognised type
    code fails the parse, and the entries constructed before it stay.
    The function returns nothing and gets no status pointer (the call in
    the source), so a failed parse leaves the remaining cells as they
    were allocated. *)
Fixpoint parse_loop (n : nat) (k : nat) (cursor : Z) (cells : list potentialArg)
  : M (list potentialArg) :=
  match n with
  | O => ret cells
  | S n' =>
      do t <- gets (fun s => arr_pot_type s (Z.of_nat k)) ;
      match pot_ctor t with
      | None => ret cells
      | Some c =>
          do params <- gets (fun s => slice (arr_pot_args s) cursor (c_nargs c)) ;
          do tab <- alloc_if (c_table c) interp_2d_alloc ;
          do ac <- alloc_if (c_accel c) gsl_interp_accel_alloc ;
          parse_loop n' (S k) (cursor + Z.of_nat (c_nargs c))
                     (<[k := mkArg t params tab ac]> cells)
      end
  end.

Definition parse_actionAngleArgs (npot : Z) (cells : list potentialArg)
  : M (list potentialArg) :=
  parse_loop (Z.to_nat npot) 0 0 cells.

(** Modelled from the spec: [evaluatePotentials] is defined in the
    potentials library.  Section 4.2: the sum, over all [npot] entries,
    of each entry's contribution as computed by the per-type evaluation
    function; only accumulation, nothing masked. *)
Definition evaluatePotentials (Rv zv : double) (npot : Z) (cells : list potentialArg)
  : double :=
  fold_left (fun pot e => dadd pot (potentialEval (ptype e) (args e) Rv zv))
            (take (Z.to_nat npot) cells) dzero.

(** Modelled from the spec: [put_row] is defined with the spline
    coefficients code.  Section 4.3: copies the row ([width] values)
    into the output buffer at offset [y * width]. *)
Definition put_row (y : Z) (line : Z -> double) (width : Z) : M unit :=
  for_upto width (fun i _ => store_out (y * width + i) (line i)) tt.

(** ** The entry points *)

(** [calc_potential], grid mode.  The arguments [R], [z], [pot_type],
    [pot_args], [out] and [err] of the C function are the buffers of the
    state. *)
Definition calc_potential (nR nz npot : Z) : M unit :=
  do row <- malloc_row nz ;
  do actionAngleArgs <- malloc_args npot ;
  do actionAngleArgs <- parse_actionAngleArgs npot actionAngleArgs ;
  do row <- for_upto nR (fun ii row =>
     do row <- for_upto nz (fun jj row =>
        do Rv <- gets (fun s => arr_R s ii) ;
        do zv <- gets (fun s => arr_z s jj) ;
        ret (upd row jj (evaluatePotentials Rv zv npot actionAngleArgs))) row ;
     run put_row ii row nz ;
     ret row) row ;
  do first <- entry actionAngleArgs 0 ;
  run match i2d first with Some h => interp_2d_free h | None => ret tt end ;
  do first <- entry actionAngleArgs 0 ;
  run match acc first with Some h => gsl_interp_accel_free h | None => ret tt end ;
  run free_args ;
  free_row.

(** [eval_potential], paired mode. *)
Definition eval_potential (nR npot : Z) : M unit :=
  do actionAngleArgs <- malloc_args npot ;
  do actionAngleArgs <- parse_actionAngleArgs npot actionAngleArgs ;
  run for_upto nR (fun ii _ =>
     do Rv <- gets (fun s => arr_R s ii) ;
     do zv <- gets (fun s => arr_z s ii) ;
     store_out ii (evaluatePotentials Rv zv npot actionAngleArgs)) tt ;
  do first <- entry actionAngleArgs 0 ;
  run match i2d first with Some h => interp_2d_free h | None => ret tt end ;
  do first <- entry actionAngleArgs 0 ;
  run match acc first with Some h => gsl_interp_accel_free h | None => ret tt end ;
  free_args.

End Potentials.

(** The value a run returned, for a run that yields an entry array. *)
Definition cells_of (r : result (list potentialArg) * state) : list potentialArg :=
  match r with
  | (Ok cells, _) => cells
  | (OutOfBounds, _) => []
  end.

(** The entry list a call works on: the freshly allocated array after
    the parser has run over it. *)
Definition parsed_args {ext : Externals} (npot : Z) (s : state) : list potentialArg :=
  cells_of ((do a <- malloc_args npot ; parse_actionAngleArgs npot a) s).

(** The number of parameters the first [n] descriptors from index [k]
    take from the flat buffer. *)
Fixpoint params_consumed {ext : Externals} (n : nat) (k : Z) (types : Z -> Z) : Z :=
  match n with
  | O => 0
  | S n' =>
      match pot_ctor (types k) with
      | None => 0
      | Some c => Z.of_nat (c_nargs c) + params_consumed n' (k + 1) types
      end
  end.

(** Every one of the first [npot] type codes has a constructor. *)
Definition all_recognised (ctors : Z -> option ctor) (npot : Z) (types : Z -> Z) : Prop :=
  forall k, 0 <= k < npot -> ctors (types k) <> None.

(** The events a run appended to the trace. *)
Definition new_events (s s' : state) : list event :=
  drop (length (trace s)) (trace s').

(** The state a run stops in, and whether it returned. *)
Definition final {A : Type} (m : M A) (s : state) : state := snd (m s).
Definition returns {A : Type} (m : M A) (s : state) : bool :=
  match fst (m s) with Ok _ => true | OutOfBounds => false end.

(** [lo <= k < lo + n]. *)
Definition in_range (lo n k : Z) : bool := (lo <=? k) && (k <? lo + n).

(** What the evaluation of an entry looks at. *)
Definition cell_view (e : potentialArg) : Z * list double := (ptype e, args e).

Definition is_alloc (e : event) : bool :=
  match e with Interp_2d_alloc _ | Accel_alloc _ => true | _ => false end.

Definition is_malloc_row (e : event) : bool :=
  match e with Malloc_row _ => true | _ => false end.

Definition is_release (e : event) : bool :=
  match e with Interp_2d_free _ | Accel_free _ => true | _ => false end.

(** The release calls the teardown makes for an entry: the table if the
    entry has one, then the accelerator if it has one. *)
Definition releases (e : potentialArg) : list event :=
  match i2d e with Some h => [Interp_2d_free h] | None => [] end
  ++ match acc e with Some h => [Accel_free h] | None => [] end.

(** The caller's input arrays and the status cell are the same in both
    states. *)
Definition inputs_kept (s s' : state) : Prop :=
  arr_R s' = arr_R s /\ arr_z s' = arr_z s /\
  arr_pot_type s' = arr_pot_type s /\ arr_pot_args s' = arr_pot_args s /\
  cell_err s' = cell_err s.

(** The allocator is in the same state in both. *)
Definition alloc_kept (s s' : state) : Prop :=
  next_handle s' = next_handle s /\ trace s' = trace s.

(** ** A small potentials library to run the entry points on

    Two potential types: code 0 takes one parameter (an amplitude) and
    owns nothing; code 13 takes two parameters and owns a table and an
    accelerator.  Every other code is unrecognised. *)
Module Sample.

Definition d1 : double := S754_finite false 4503599627370496 (-52).
Definition d2 : double := dadd d1 d1.
Definition d3 : double := dadd d2 d1.
Definition d5 : double := dadd d3 d2.

Definition ctor_of (t : Z) : option ctor :=
  match t with
  | 0 => Some (mkCtor 1 false false)
  | 13 => Some (mkCtor 2 true true)
  | _ => None
  end.

Definition eval_of (t : Z) (params : list double) (Rv zv : double) : double :=
  match t with
  | 0 => dadd (hd dzero params) (dadd Rv (dadd zv zv))
  | 13 => hd dzero params
  | _ => dzero
  end.

Definition lib : Externals :=
  mkExternals ctor_of eval_of (mkArg 0 [] None None) (fun _ => S754_nan).

(** [lib] for a call whose fresh cells hold something else. *)
Definition lib_other_heap : Externals :=
  mkExternals ctor_of eval_of (mkArg 0 [d5] None None) (fun _ => dzero).

(** A library whose every type evaluates to zero everywhere. *)
Definition null_lib : Externals :=
  mkExternals ctor_of (fun _ _ _ _ => dzero) (mkArg 0 [] None None) (fun _ => S754_nan).

(** Buffers given by their first elements. *)
Definition buf {A : Type} (l : list A) (d : A) : Z -> A :=
  fun k => if Z.ltb k 0 then d else nth (Z.to_nat k) l d.

Definition start (Rs zs : list double) (types : list Z) (params : list double)
    (e : Z) : state :=
  mkState (buf Rs S754_nan) (buf zs S754_nan) (buf types (-1)) (buf params S754_nan)
          (fun _ => S754_nan) e 1%positive [].

(** A 2 x 3 grid call on one component of type 0 with amplitude 5. *)
Definition grid_call : state := start [d1; d2] [d1; d2; d3] [0] [d5] 0.

(** The paired call on the single point [(R[1], z[2])] of [grid_call],
    from another allocator state and with another output buffer. *)
Definition pair_call : state :=
  mkState (buf [d2] S754_nan) (buf [d3] S754_nan)
          (arr_pot_type grid_call) (arr_pot_args grid_call)
          (fun _ => dzero) 7 9%positive [Free_row].

(** The inputs of [grid_call] in the state left by an earlier call:
    another output buffer, a nonzero status cell, an allocator that has
    handed out handles, and a trace. *)
Definition grid_call_again : state :=
  mkState (arr_R grid_call) (arr_z grid_call)
          (arr_pot_type grid_call) (arr_pot_args grid_call)
          (fun _ => d3) 2 6%positive
          [Malloc_row 3; Malloc_args 1; Free_args; Free_row].

(** [grid_call] with other values beyond the declared counts, another
    output buffer, status and allocator state. *)
Definition grid_call_padded : state :=
  mkState (buf [d1; d2; d5] dzero) (buf [d1; d2; d3; d5] dzero)
          (buf [0; 13] 0) (buf [d5; d3] dzero)
          (fun _ => d1) 3 5%positive [Malloc_args 4].

(** [grid_call] with other coordinates everywhere but at [R[1]],
    [z[1]] and [z[2]]. *)
Definition grid_call_other : state := start [d5; d2] [d5; d2; d3] [0] [d5] 0.

(** Two components, both of the table-backed type 13; no point to
    evaluate. *)
Definition two_tables : state := start [] [] [13; 13] [d5; d1; d2; d3] 0.

(** A recognised type code followed by the unrecognised code -1; the
    status cell is zero before the call. *)
Definition unknown_code : state := start [] [] [0; -1] [d5] 0.

(** One point, and a recognised type code followed by the unrecognised
    code -1. *)
Definition unknown_code_point : state := start [d1] [d1] [0; -1] [d5] 0.

(** Two components, of types 0 and 13, on a 2 x 3 grid. *)
Definition two_components : state :=
  start [d1; d2] [d1; d2; d3] [0; 13] [d5; d1; d2] 0.

End Sample.

(** ** Properties *)

Section Properties.

Context {ext : Externals}.

Lemma inputs_kept_refl s : inputs_kept s s.
Proof. repeat split. Qed.

Lemma inputs_kept_trans s1 s2 s3 :
  inputs_kept s1 s2 -> inputs_kept s2 s3 -> inputs_kept s1 s3.
Proof.
  unfold inputs_kept. intros (a1 & a2 & a3 & a4 & a5) (b1 & b2 & b3 & b4 & b5).
  repeat split; congruence.
Qed.

Lemma upd_same {A : Type} (f : Z -> A) k v : upd f k v k = v.
Proof. unfold upd. now rewrite Z.eqb_refl. Qed.

Lemma upd_other {A : Type} (f : Z -> A) k v x : x <> k -> upd f k v x = f x.
Proof. unfold upd. intros H. destruct (Z.eqb_spec x k); [contradiction | reflexivity]. Qed.

(** Running [m] and then [f], when [m] returns. *)
Lemma bind_ok {A B : Type} (m : M A) (f : A -> M B) s a s' :
  m s = (Ok a, s') -> bind m f s = f a s'.
Proof. intros H. unfold bind. now rewrite H. Qed.

(** A loop whose body always returns keeps an invariant indexed by the
    number of iterations done. *)
Lemma for_loop_inv {A : Type} (n : nat) :
  forall (I : nat -> A -> state -> Prop) (i0 : Z) (body : Z -> A -> M A) (a : A) (s : state),
    I 0%nat a s ->
    (forall k a s, (k < n)%nat -> I k a s ->
       exists a' s', body (i0 + Z.of_nat k) a s = (Ok a', s') /\ I (S k) a' s') ->
    exists a' s', for_loop n i0 body a s = (Ok a', s') /\ I n a' s'.
Proof.
  induction n as [|n IH]; intros I i0 body a s H0 Hstep.
  - exists a, s. split; [reflexivity | exact H0].
  - destruct (Hstep 0%nat a s ltac:(lia) H0) as (a1 & s1 & Hb & H1).
    rewrite Z.add_0_r in Hb.
    destruct (IH (fun k => I (S k)) (i0 + 1) body a1 s1 H1) as (a2 & s2 & Hl & H2).
    + intros k a' s' Hk HI.
      destruct (Hstep (S k) a' s' ltac:(lia) HI) as (a3 & s3 & Hb3 & H3).
      exists a3, s3. split; [| exact H3].
      rewrite <- Hb3. f_equal. lia.
    + exists a2, s2. split; [| exact H2].
      simpl. rewrite (bind_ok _ _ _ _ _ Hb). exact Hl.
Qed.

(** [in_range lo n k]: [lo <= k < lo + n]. *)
Lemma in_range_spec lo n k :
  in_range lo n k = true <-> lo <= k < lo + n.
Proof. unfold in_range. rewrite andb_true_iff, Z.leb_le, Z.ltb_lt. lia. Qed.

Lemma in_range_false lo n k :
  in_range lo n k = false <-> ~ (lo <= k < lo + n).
Proof.
  rewrite <- in_range_spec. destruct (in_range lo n k); split; intros H;
    try reflexivity; try discriminate; try (intros H'; discriminate).
  exfalso. apply H. reflexivity.
Qed.

(** The inner loop of [calc_potential] fills the scratch row and leaves
    the state alone. *)
Lemma row_loop_spec (nz ii npot : Z) (cells : list potentialArg) (row : Z -> double) s :
  exists row',
    for_upto nz (fun jj row =>
        do Rv <- gets (fun s => arr_R s ii) ;
        do zv <- gets (fun s => arr_z s jj) ;
        ret (upd row jj (evaluatePotentials Rv zv npot cells))) row s
    = (Ok row', s)
    /\ forall j, row' j = if in_range 0 nz j
                          then evaluatePotentials (arr_R s ii) (arr_z s j) npot cells
                          else row j.
Proof.
  unfold for_upto.
  destruct (for_loop_inv (Z.to_nat nz)
              (fun k row' s' => s' = s /\
                 forall j, row' j = if in_range 0 (Z.of_nat k) j
                                    then evaluatePotentials (arr_R s ii) (arr_z s j) npot cells
                                    else row j)
              0 (fun jj row =>
                   do Rv <- gets (fun s => arr_R s ii) ;
                   do zv <- gets (fun s => arr_z s jj) ;
                   ret (upd row jj (evaluatePotentials Rv zv npot cells))) row s)
    as (row' & s' & Heq & -> & Hrow).
  - split; [reflexivity |]. intros j.
    destruct (in_range 0 (Z.of_nat 0) j) eqn:E; [| reflexivity].
    apply in_range_spec in E. lia.
  - intros k r s0 Hk [-> Hr]. eexists _, s. split; [reflexivity |].
    split; [reflexivity |]. intros j. simpl.
    destruct (Z.eq_dec j (Z.of_nat k)) as [-> | Hne].
    + rewrite upd_same.
      destruct (in_range 0 (Z.of_nat (S k)) (Z.of_nat k)) eqn:E; [reflexivity |].
      apply in_range_false in E. lia.
    + rewrite upd_other by exact Hne. rewrite Hr.
      destruct (in_range 0 (Z.of_nat k) j) eqn:E1;
        destruct (in_range 0 (Z.of_nat (S k)) j) eqn:E2; try reflexivity;
        [apply in_range_spec in E1; apply in_range_false in E2
        |apply in_range_false in E1; apply in_range_spec in E2]; lia.
  - exists row'. split; [exact Heq |]. intros j. rewrite Hrow.
    destruct (in_range 0 (Z.of_nat (Z.to_nat nz)) j) eqn:E1;
      destruct (in_range 0 nz j) eqn:E2; try reflexivity;
      [apply in_range_spec in E1; apply in_range_false in E2
      |apply in_range_false in E1; apply in_range_spec in E2]; lia.
Qed.

(** Case analysis on every range test of the goal. *)
Ltac range_cases :=
  repeat match goal with
  | |- context [in_range ?a ?b ?c] =>
      let E := fresh "E" in
      destruct (in_range a b c) eqn:E;
      [apply in_range_spec in E | apply in_range_false in E]
  end.

(** [put_row] overwrites [out[y*width .. y*width + width - 1]] with the
    row and touches nothing else. *)
Lemma put_row_spec (y : Z) (line : Z -> double) (width : Z) s :
  exists s',
    put_row y line width s = (Ok tt, s')
    /\ inputs_kept s s' /\ alloc_kept s s'
    /\ forall k, arr_out s' k = if in_range (y * width) width k
                                then line (k - y * width)
                                else arr_out s k.
Proof.
  unfold put_row, for_upto.
  destruct (for_loop_inv (Z.to_nat width)
              (fun n (_ : unit) s' =>
                 inputs_kept s s' /\ alloc_kept s s' /\
                 forall k, arr_out s' k = if in_range (y * width) (Z.of_nat n) k
                                          then line (k - y * width)
                                          else arr_out s k)
              0 (fun i _ => store_out (y * width + i) (line i)) tt s)
    as ([] & s' & Heq & Hin & Hal & Hout).
  - split; [apply inputs_kept_refl |]. split; [split; reflexivity |].
    intros k. range_cases; [lia | reflexivity].
  - intros n [] s0 Hn (Hin & Hal & Hout).
    eexists tt, _. split; [reflexivity |].
    split; [exact Hin |]. split; [exact Hal |].
    intros k. simpl.
    destruct (Z.eq_dec k (y * width + Z.of_nat n)) as [-> | Hne].
    + rewrite upd_same. range_cases; [f_equal; lia | lia].
    + rewrite upd_other by exact Hne. rewrite Hout.
      range_cases; try reflexivity; lia.
  - exists s'. split; [exact Heq |]. split; [exact Hin |]. split; [exact Hal |].
    intros k. rewrite Hout. range_cases; try reflexivity; lia.
Qed.

(** The grid walk of [calc_potential]: row [i] of the output holds the
    composite potential at [(R[i], z[j])], and nothing outside the
    [nR * nz] cells is written. *)
Lemma grid_loop_spec (nR nz npot : Z) (cells : list potentialArg) (row : Z -> double) s :
  exists row' s',
    for_upto nR (fun ii row =>
       do row <- for_upto nz (fun jj row =>
          do Rv <- gets (fun s => arr_R s ii) ;
          do zv <- gets (fun s => arr_z s jj) ;
          ret (upd row jj (evaluatePotentials Rv zv npot cells))) row ;
       run put_row ii row nz ;
       ret row) row s
    = (Ok row', s')
    /\ inputs_kept s s' /\ alloc_kept s s'
    /\ (forall i j, 0 <= i < nR -> 0 <= j < nz ->
          arr_out s' (i * nz + j)
          = evaluatePotentials (arr_R s i) (arr_z s j) npot cells)
    /\ (forall k, ~ (0 <= k < nR * nz) -> arr_out s' k = arr_out s k).
Proof.
  unfold for_upto at 1.
  destruct (for_loop_inv (Z.to_nat nR)
              (fun n (_ : Z -> double) s' =>
                 inputs_kept s s' /\ alloc_kept s s' /\
                 (forall i j, 0 <= i < Z.of_nat n -> 0 <= j < nz ->
                    arr_out s' (i * nz + j)
                    = evaluatePotentials (arr_R s i) (arr_z s j) npot cells) /\
                 (forall k, ~ (0 <= k < Z.of_nat n * nz) -> arr_out s' k = arr_out s k))
              0 (fun ii row =>
                   do row <- for_upto nz (fun jj row =>
                      do Rv <- gets (fun s => arr_R s ii) ;
                      do zv <- gets (fun s => arr_z s jj) ;
                      ret (upd row jj (evaluatePotentials Rv zv npot cells))) row ;
                   run put_row ii row nz ;
                   ret row) row s)
    as (row' & s' & Heq & Hin & Hal & Hval & Hframe).
  - split; [apply inputs_kept_refl |]. split; [split; reflexivity |].
    split; [intros; lia | reflexivity].
  - intros n r s0 Hn (Hin & Hal & Hval & Hframe). simpl.
    destruct (row_loop_spec nz (Z.of_nat n) npot cells r s0) as (r1 & Hr1 & Hrow).
    destruct (put_row_spec (Z.of_nat n) r1 nz s0) as (s1 & Hp & Hin1 & Hal1 & Hout1).
    exists r1, s1. split.
    { rewrite (bind_ok _ _ _ _ _ Hr1), (bind_ok _ _ _ _ _ Hp). reflexivity. }
    split; [eapply inputs_kept_trans; eassumption |].
    split; [destruct Hal, Hal1; split; congruence |].
    destruct Hin as (HR & Hz & _).
    split.
    + intros i j Hi Hj. rewrite Hout1. range_cases.
      * assert (i = Z.of_nat n) as -> by nia.
        rewrite Hrow. replace (Z.of_nat n * nz + j - Z.of_nat n * nz) with j by lia.
        range_cases; [| lia]. now rewrite HR, Hz.
      * apply Hval; [nia | lia].
    + intros k Hk. rewrite Hout1. range_cases; [nia |].
      apply Hframe. nia.
  - exists row', s'. split; [exact Heq |]. split; [exact Hin |]. split; [exact Hal |].
    split.
    + intros i j Hi Hj. apply Hval; lia.
    + intros k Hk. apply Hframe. nia.
Qed.

(** The paired walk of [eval_potential]. *)
Lemma pair_loop_spec (nR npot : Z) (cells : list potentialArg) s :
  exists s',
    for_upto nR (fun ii _ =>
       do Rv <- gets (fun s => arr_R s ii) ;
       do zv <- gets (fun s => arr_z s ii) ;
       store_out ii (evaluatePotentials Rv zv npot cells)) tt s
    = (Ok tt, s')
    /\ inputs_kept s s' /\ alloc_kept s s'
    /\ (forall i, 0 <= i < nR ->
          arr_out s' i = evaluatePotentials (arr_R s i) (arr_z s i) npot cells)
    /\ (forall k, ~ (0 <= k < nR) -> arr_out s' k = arr_out s k).
Proof.
  unfold for_upto.
  destruct (for_loop_inv (Z.to_nat nR)
              (fun n (_ : unit) s' =>
                 inputs_kept s s' /\ alloc_kept s s' /\
                 (forall i, 0 <= i < Z.of_nat n ->
                    arr_out s' i
                    = evaluatePotentials (arr_R s i) (arr_z s i) npot cells) /\
                 (forall k, ~ (0 <= k < Z.of_nat n) -> arr_out s' k = arr_out s k))
              0 (fun ii _ =>
                   do Rv <- gets (fun s => arr_R s ii) ;
                   do zv <- gets (fun s => arr_z s ii) ;
                   store_out ii (evaluatePotentials Rv zv npot cells)) tt s)
    as ([] & s' & Heq & Hin & Hal & Hval & Hframe).
  - split; [apply inputs_kept_refl |]. split; [split; reflexivity |].
    split; [intros; lia | reflexivity].
  - intros n [] s0 Hn (Hin & Hal & Hval & Hframe).
    eexists tt, _. split; [reflexivity |].
    split; [exact Hin |]. split; [exact Hal |].
    destruct Hin as (HR & Hz & _). simpl. split.
    + intros i Hi. destruct (Z.eq_dec i (Z.of_nat n)) as [-> | Hne].
      * rewrite upd_same. now rewrite HR, Hz.
      * rewrite upd_other by exact Hne. apply Hval. lia.
    + intros k Hk. rewrite upd_other by lia. apply Hframe. lia.
  - exists s'. split; [exact Heq |]. split; [exact Hin |]. split; [exact Hal |].
    split.
    + intros i Hi. apply Hval. lia.
    + intros k Hk. apply Hframe. lia.
Qed.

(** *** The parser *)

Lemma interp_2d_alloc_spec s :
  exists h s' evs,
    interp_2d_alloc s = (Ok h, s')
    /\ inputs_kept s s' /\ arr_out s' = arr_out s
    /\ trace s' = trace s ++ evs /\ forallb is_alloc evs = true.
Proof.
  eexists _, _, [_]. split; [reflexivity |].
  repeat split.
Qed.

Lemma gsl_interp_accel_alloc_spec s :
  exists h s' evs,
    gsl_interp_accel_alloc s = (Ok h, s')
    /\ inputs_kept s s' /\ arr_out s' = arr_out s
    /\ trace s' = trace s ++ evs /\ forallb is_alloc evs = true.
Proof.
  eexists _, _, [_]. split; [reflexivity |].
  repeat split.
Qed.

Lemma alloc_if_spec (b : bool) (alloc : M handle) s :
  (forall s, exists h s' evs,
      alloc s = (Ok h, s')
      /\ inputs_kept s s' /\ arr_out s' = arr_out s
      /\ trace s' = trace s ++ evs /\ forallb is_alloc evs = true) ->
  exists o s' evs,
    alloc_if b alloc s = (Ok o, s')
    /\ inputs_kept s s' /\ arr_out s' = arr_out s
    /\ trace s' = trace s ++ evs /\ forallb is_alloc evs = true.
Proof.
  intros Halloc. destruct b; simpl.
  - destruct (Halloc s) as (h & s' & evs & Heq & Hrest).
    exists (Some h), s', evs. split; [| exact Hrest].
    now rewrite (bind_ok _ _ _ _ _ Heq).
  - exists None, s, []. split; [reflexivity |].
    split; [apply inputs_kept_refl |]. split; [reflexivity |].
    split; [now rewrite app_nil_r | reflexivity].
Qed.

(** One descriptor of the parser's loop. *)
Lemma parse_loop_S (n k : nat) (cursor : Z) (cells : list potentialArg) s :
  parse_loop (S n) k cursor cells s
  = match pot_ctor (arr_pot_type s (Z.of_nat k)) with
    | None => (Ok cells, s)
    | Some c =>
        (do tab <- alloc_if (c_table c) interp_2d_alloc ;
         do ac <- alloc_if (c_accel c) gsl_interp_accel_alloc ;
         parse_loop n (S k) (cursor + Z.of_nat (c_nargs c))
           (<[k := mkArg (arr_pot_type s (Z.of_nat k))
                         (slice (arr_pot_args s) cursor (c_nargs c)) tab ac]> cells)) s
    end.
Proof.
  cbn [parse_loop]. unfold bind at 1, gets at 1.
  destruct (pot_ctor (arr_pot_type s (Z.of_nat k))); reflexivity.
Qed.

(** The parser always returns; it keeps the caller's buffers and the
    length of the array, and the only calls it makes allocate. *)
Lemma parse_loop_spec (n : nat) :
  forall (k : nat) (cursor : Z) (cells : list potentialArg) s,
  exists cells' s' evs,
    parse_loop n k cursor cells s = (Ok cells', s')
    /\ inputs_kept s s' /\ arr_out s' = arr_out s
    /\ length cells' = length cells
    /\ trace s' = trace s ++ evs /\ forallb is_alloc evs = true.
Proof.
  induction n as [|n IH]; intros k cursor cells s.
  - exists cells, s, []. split; [reflexivity |].
    split; [apply inputs_kept_refl |]. split; [reflexivity |].
    split; [reflexivity |]. split; [now rewrite app_nil_r | reflexivity].
  - rewrite parse_loop_S.
    destruct (pot_ctor (arr_pot_type s (Z.of_nat k))) as [c|].
    + destruct (alloc_if_spec (c_table c) interp_2d_alloc s interp_2d_alloc_spec)
        as (tab & s1 & ev1 & H1 & Hin1 & Hout1 & Htr1 & Hev1).
      rewrite (bind_ok _ _ _ _ _ H1).
      destruct (alloc_if_spec (c_accel c) gsl_interp_accel_alloc s1
                  gsl_interp_accel_alloc_spec)
        as (ac & s2 & ev2 & H2 & Hin2 & Hout2 & Htr2 & Hev2).
      rewrite (bind_ok _ _ _ _ _ H2).
      destruct (IH (S k) (cursor + Z.of_nat (c_nargs c))
                  (<[k := mkArg (arr_pot_type s (Z.of_nat k))
                                (slice (arr_pot_args s) cursor (c_nargs c)) tab ac]> cells)
                  s2)
        as (cells' & s3 & ev3 & H3 & Hin3 & Hout3 & Hlen3 & Htr3 & Hev3).
      exists cells', s3, (ev1 ++ ev2 ++ ev3). split; [exact H3 |].
      split; [eauto using inputs_kept_trans |].
      split; [congruence |].
      split; [now rewrite Hlen3, length_insert |].
      split.
      * rewrite Htr3, Htr2, Htr1. now rewrite <- !app_assoc.
      * rewrite !forallb_app, Hev1, Hev2, Hev3. reflexivity.
    + exists cells, s, []. split; [reflexivity |].
      split; [apply inputs_kept_refl |]. split; [reflexivity |].
      split; [reflexivity |]. split; [now rewrite app_nil_r | reflexivity].
Qed.

Lemma params_consumed_nonneg (n : nat) :
  forall k types, 0 <= params_consumed n k types.
Proof.
  induction n as [|n IH]; intros k types; simpl; [lia |].
  destruct (pot_ctor (types k)); [| lia].
  specialize (IH (k + 1) types). lia.
Qed.

Lemma slice_ext (f g : Z -> double) (cursor : Z) (n : nat) :
  (forall q, cursor <= q < cursor + Z.of_nat n -> f q = g q) ->
  slice f cursor n = slice g cursor n.
Proof.
  intros H. unfold slice. apply map_ext_in. intros i Hi.
  apply in_seq in Hi. apply H. lia.
Qed.

(** When every type code is recognised the parser writes every cell:
    the tags and parameters it leaves depend neither on what the cells
    held before nor on the allocator, only on the type codes and on the
    parameters these take. *)
Lemma parse_loop_overwrites (n : nat) :
  forall (k : nat) (cursor : Z) (c1 c2 : list potentialArg) s1 s2,
    length c1 = (k + n)%nat -> length c2 = (k + n)%nat ->
    map cell_view (take k c1) = map cell_view (take k c2) ->
    (forall i, Z.of_nat k <= i < Z.of_nat k + Z.of_nat n ->
               arr_pot_type s1 i = arr_pot_type s2 i) ->
    (forall i, Z.of_nat k <= i < Z.of_nat k + Z.of_nat n ->
               pot_ctor (arr_pot_type s1 i) <> None) ->
    (forall q, cursor <= q < cursor + params_consumed n (Z.of_nat k) (arr_pot_type s1) ->
               arr_pot_args s1 q = arr_pot_args s2 q) ->
    map cell_view (cells_of (parse_loop n k cursor c1 s1))
    = map cell_view (cells_of (parse_loop n k cursor c2 s2)).
Proof.
  induction n as [|n IH]; intros k cursor c1 c2 s1 s2 Hl1 Hl2 Htake Hty Hknown Har.
  - cbn [parse_loop ret cells_of].
    rewrite (take_ge c1 k), (take_ge c2 k) in Htake by lia. exact Htake.
  - rewrite !parse_loop_S.
    rewrite <- (Hty (Z.of_nat k)) by lia.
    cbn [params_consumed] in Har.
    pose proof (Hknown (Z.of_nat k) ltac:(lia)) as Hk.
    destruct (pot_ctor (arr_pot_type s1 (Z.of_nat k))) as [c|]; [| contradiction].
    pose proof (params_consumed_nonneg n (Z.of_nat k + 1) (arr_pot_type s1)) as Hnn.
    rewrite <- (slice_ext (arr_pot_args s1) (arr_pot_args s2) cursor (c_nargs c))
      by (intros q Hq; apply Har; lia).
    destruct (alloc_if_spec (c_table c) interp_2d_alloc s1 interp_2d_alloc_spec)
      as (tab1 & s1a & ? & H1a & Hin1a & _).
    destruct (alloc_if_spec (c_table c) interp_2d_alloc s2 interp_2d_alloc_spec)
      as (tab2 & s2a & ? & H2a & Hin2a & _).
    rewrite (bind_ok _ _ _ _ _ H1a), (bind_ok _ _ _ _ _ H2a).
    destruct (alloc_if_spec (c_accel c) gsl_interp_accel_alloc s1a
                gsl_interp_accel_alloc_spec)
      as (ac1 & s1b & ? & H1b & Hin1b & _).
    destruct (alloc_if_spec (c_accel c) gsl_interp_accel_alloc s2a
                gsl_interp_accel_alloc_spec)
      as (ac2 & s2b & ? & H2b & Hin2b & _).
    rewrite (bind_ok _ _ _ _ _ H1b), (bind_ok _ _ _ _ _ H2b).
    pose proof (inputs_kept_trans _ _ _ Hin1a Hin1b) as (_ & _ & Ht1 & Ha1 & _).
    pose proof (inputs_kept_trans _ _ _ Hin2a Hin2b) as (_ & _ & Ht2 & Ha2 & _).
    apply IH.
    + rewrite length_insert. lia.
    + rewrite length_insert. lia.
    + rewrite (take_S_r _ k _ (list_lookup_insert_eq c1 k _ ltac:(lia))).
      rewrite (take_S_r _ k _ (list_lookup_insert_eq c2 k _ ltac:(lia))).
      rewrite !take_insert_ge by lia.
      rewrite !map_app, Htake. reflexivity.
    + intros i Hi. rewrite Ht1, Ht2. apply Hty. lia.
    + intros i Hi. rewrite Ht1. apply Hknown. lia.
    + intros q Hq. rewrite Ht1 in Hq. rewrite Ha1, Ha2. apply Har.
      replace (Z.of_nat (S k)) with (Z.of_nat k + 1) in Hq by lia. lia.
Qed.

(** The parser's result depends on the state only through the
    descriptors and the next handle of the allocator. *)
Lemma parse_loop_ext (n : nat) :
  forall (k : nat) (cursor : Z) (cells : list potentialArg) s1 s2,
    arr_pot_type s1 = arr_pot_type s2 -> arr_pot_args s1 = arr_pot_args s2 ->
    next_handle s1 = next_handle s2 ->
    cells_of (parse_loop n k cursor cells s1) = cells_of (parse_loop n k cursor cells s2).
Proof.
  induction n as [|n IH]; intros k cursor cells s1 s2 Hty Har Hnh; [reflexivity |].
  rewrite !parse_loop_S, Hty, Har.
  destruct (pot_ctor (arr_pot_type s2 (Z.of_nat k))) as [c|]; [| reflexivity].
  destruct (c_table c), (c_accel c); cbn [alloc_if];
    unfold bind, interp_2d_alloc, gsl_interp_accel_alloc, bind, fresh_handle, emit, ret;
    cbn [next_handle set_next_handle set_trace]; rewrite ?Hnh;
    apply IH; cbn; congruence.
Qed.

(** The composite evaluation looks at the tags and parameters only. *)
Lemma evaluatePotentials_view (Rv zv : double) (npot : Z) (c1 c2 : list potentialArg) :
  map cell_view c1 = map cell_view c2 ->
  evaluatePotentials Rv zv npot c1 = evaluatePotentials Rv zv npot c2.
Proof.
  unfold evaluatePotentials. generalize dzero as a0. generalize (Z.to_nat npot) as n.
  revert c2. induction c1 as [|x1 c1 IH]; intros [|x2 c2] n a0 H;
    try discriminate; [reflexivity |].
  cbn [map] in H. injection H as Hp Ha Hc. destruct n as [|n]; [reflexivity |].
  cbn [take fold_left]. rewrite Hp, Ha. now apply IH.
Qed.

Lemma malloc_row_run (nz : Z) s :
  malloc_row nz s = (Ok uninit_row, set_trace (trace s ++ [Malloc_row nz]) s).
Proof. reflexivity. Qed.

Lemma malloc_args_run (npot : Z) s :
  malloc_args npot s
  = (Ok (replicate (Z.to_nat npot) uninit_arg),
     set_trace (trace s ++ [Malloc_args npot]) s).
Proof. reflexivity. Qed.

(** *** The teardown and the entry points as a whole *)

(** The teardown shared by the two entry points: it reads the first
    entry, so it returns exactly when the array has one; the only
    release calls it makes are the ones for that entry; it writes
    neither the caller's buffers nor the status cell. *)
Lemma teardown_spec (cells : list potentialArg) (fin : M unit) (fin_evs : list event) s :
  (forall s0, exists s1, fin s0 = (Ok tt, s1) /\ inputs_kept s0 s1
                         /\ arr_out s1 = arr_out s0
                         /\ trace s1 = trace s0 ++ fin_evs) ->
  exists sf,
    (do first <- entry cells 0 ;
     run match i2d first with Some h => interp_2d_free h | None => ret tt end ;
     do first <- entry cells 0 ;
     run match acc first with Some h => gsl_interp_accel_free h | None => ret tt end ;
     fin) s
    = (match cells with [] => OutOfBounds | _ :: _ => Ok tt end, sf)
    /\ inputs_kept s sf /\ arr_out sf = arr_out s
    /\ trace sf = trace s ++ match cells with
                             | [] => []
                             | e :: _ => releases e ++ fin_evs
                             end.
Proof.
  intros Hfin. destruct cells as [|e rest].
  - exists s. split; [reflexivity |]. split; [apply inputs_kept_refl |].
    split; [reflexivity | now rewrite app_nil_r].
  - unfold bind, entry, releases. cbn [lookup list_lookup].
    destruct (i2d e) as [h1|], (acc e) as [h2|]; cbn;
      match goal with
      | |- exists sf, ?f ?s0 = _ /\ _ =>
          destruct (Hfin s0) as (s1 & Ht & Hin & Hout & Htr);
          rewrite Ht
      end;
      (exists s1; split; [reflexivity |];
       split; [exact Hin |]; split; [exact Hout |];
       rewrite Htr; cbn [trace set_trace];
       now rewrite <- ?app_assoc).
Qed.

Lemma releases_not_malloc_row (e : potentialArg) :
  existsb is_malloc_row (releases e) = false.
Proof. unfold releases. now destruct (i2d e), (acc e). Qed.

(** The array the parser leaves is the one [parsed_args] names; it has
    [npot] cells. *)
Lemma parse_run (npot : Z) s0 s :
  arr_pot_type s0 = arr_pot_type s -> arr_pot_args s0 = arr_pot_args s ->
  next_handle s0 = next_handle s ->
  exists s1 evs,
    parse_actionAngleArgs npot (replicate (Z.to_nat npot) uninit_arg) s0
    = (Ok (parsed_args npot s), s1)
    /\ inputs_kept s0 s1 /\ arr_out s1 = arr_out s0
    /\ length (parsed_args npot s) = Z.to_nat npot
    /\ trace s1 = trace s0 ++ evs /\ forallb is_alloc evs = true.
Proof.
  intros Hty Har Hnh. unfold parse_actionAngleArgs.
  destruct (parse_loop_spec (Z.to_nat npot) 0 0 (replicate (Z.to_nat npot) uninit_arg) s0)
    as (cells & s1 & evs & Heq & Hin & Hout & Hlen & Htr & Hev).
  assert (Hcells : cells = parsed_args npot s).
  { change cells with (cells_of (Ok cells, s1)). rewrite <- Heq.
    unfold parsed_args, parse_actionAngleArgs.
    rewrite (bind_ok _ _ _ _ _ (malloc_args_run npot s)).
    apply parse_loop_ext; assumption. }
  rewrite <- Hcells.
  exists s1, evs. split; [exact Heq |]. split; [exact Hin |].
  split; [exact Hout |]. split; [now rewrite Hlen, length_replicate |].
  split; [exact Htr | exact Hev].
Qed.

Lemma alloc_not_malloc_row (evs : list event) :
  forallb is_alloc evs = true -> existsb is_malloc_row evs = false.
Proof.
  induction evs as [|e evs IH]; [reflexivity |]. simpl.
  intros H. apply andb_true_iff in H as [He Hevs].
  rewrite (IH Hevs). now destruct e.
Qed.

Lemma alloc_not_release (evs : list event) :
  forallb is_alloc evs = true -> filter (fun e => is_release e = true) evs = [].
Proof.
  induction evs as [|e evs IH]; [reflexivity |]. simpl.
  intros H. apply andb_true_iff in H as [He Hevs].
  destruct e; try discriminate; cbn; now apply IH.
Qed.

Lemma nonempty_iff_npot (cells : list potentialArg) (npot : Z) :
  length cells = Z.to_nat npot ->
  match cells with [] => @OutOfBounds unit | _ :: _ => Ok tt end
  = if 1 <=? npot then Ok tt else OutOfBounds.
Proof.
  intros Hlen. destruct cells as [|e rest]; simpl in Hlen;
    destruct (Z.leb_spec 1 npot); try reflexivity; lia.
Qed.

(** A whole run of [calc_potential]: outcome, buffers and trace. *)
Lemma calc_potential_run (nR nz npot : Z) s :
  exists sf allocs,
    calc_potential nR nz npot s = (if 1 <=? npot then Ok tt else OutOfBounds, sf)
    /\ inputs_kept s sf
    /\ (forall i j, 0 <= i < nR -> 0 <= j < nz ->
          arr_out sf (i * nz + j)
          = evaluatePotentials (arr_R s i) (arr_z s j) npot (parsed_args npot s))
    /\ (forall k, ~ (0 <= k < nR * nz) -> arr_out sf k = arr_out s k)
    /\ forallb is_alloc allocs = true
    /\ trace sf = trace s ++ [Malloc_row nz; Malloc_args npot] ++ allocs
                  ++ match parsed_args npot s with
                     | [] => []
                     | e :: _ => releases e ++ [Free_args; Free_row]
                     end.
Proof.
  unfold calc_potential.
  rewrite (bind_ok _ _ _ _ _ (malloc_row_run nz s)).
  rewrite (bind_ok _ _ _ _ _ (malloc_args_run npot _)).
  set (s0 := set_trace _ (set_trace _ s)).
  destruct (parse_run npot s0 s eq_refl eq_refl eq_refl)
    as (s1 & allocs & Hp & Hin1 & Hout1 & Hlen & Htr1 & Hev1).
  rewrite (bind_ok _ _ _ _ _ Hp).
  destruct (grid_loop_spec nR nz npot (parsed_args npot s) uninit_row s1)
    as (row & s2 & Hg & Hin2 & (_ & Htr2) & Hval & Hframe).
  rewrite (bind_ok _ _ _ _ _ Hg).
  destruct (teardown_spec (parsed_args npot s) (run free_args ; free_row)
              [Free_args; Free_row] s2)
    as (sf & Ht & Hin3 & Hout3 & Htr3).
  { intros x. eexists. split; [reflexivity |].
    split; [repeat split |]. split; [reflexivity |].
    cbn. now rewrite <- app_assoc. }
  exists sf, allocs. split.
  { rewrite Ht. f_equal. now apply nonempty_iff_npot. }
  assert (Hin0 : inputs_kept s s0) by (repeat split).
  pose proof (inputs_kept_trans _ _ _ Hin0 Hin1) as Hin01.
  split; [eauto using inputs_kept_trans |].
  destruct Hin01 as (HR & Hz & _).
  split; [| split; [| split]].
  - intros i j Hi Hj. now rewrite Hout3, (Hval i j Hi Hj), HR, Hz.
  - intros k Hk. rewrite Hout3, (Hframe k Hk), Hout1. reflexivity.
  - exact Hev1.
  - rewrite Htr3, Htr2, Htr1. subst s0. cbn [trace set_trace].
    rewrite <- !app_assoc. reflexivity.
Qed.

(** A whole run of [eval_potential]. *)
Lemma eval_potential_run (nR npot : Z) s :
  exists sf allocs,
    eval_potential nR npot s = (if 1 <=? npot then Ok tt else OutOfBounds, sf)
    /\ inputs_kept s sf
    /\ (forall i, 0 <= i < nR ->
          arr_out sf i
          = evaluatePotentials (arr_R s i) (arr_z s i) npot (parsed_args npot s))
    /\ (forall k, ~ (0 <= k < nR) -> arr_out sf k = arr_out s k)
    /\ forallb is_alloc allocs = true
    /\ trace sf = trace s ++ [Malloc_args npot] ++ allocs
                  ++ match parsed_args npot s with
                     | [] => []
                     | e :: _ => releases e ++ [Free_args]
                     end.
Proof.
  unfold eval_potential.
  rewrite (bind_ok _ _ _ _ _ (malloc_args_run npot s)).
  set (s0 := set_trace _ s).
  destruct (parse_run npot s0 s eq_refl eq_refl eq_refl)
    as (s1 & allocs & Hp & Hin1 & Hout1 & Hlen & Htr1 & Hev1).
  rewrite (bind_ok _ _ _ _ _ Hp).
  destruct (pair_loop_spec nR npot (parsed_args npot s) s1)
    as (s2 & Hg & Hin2 & (_ & Htr2) & Hval & Hframe).
  rewrite (bind_ok _ _ _ _ _ Hg).
  destruct (teardown_spec (parsed_args npot s) free_args [Free_args] s2)
    as (sf & Ht & Hin3 & Hout3 & Htr3).
  { intros x. eexists. split; [reflexivity |].
    split; [repeat split |]. split; reflexivity. }
  exists sf, allocs. split.
  { rewrite Ht. f_equal. now apply nonempty_iff_npot. }
  assert (Hin0 : inputs_kept s s0) by (repeat split).
  pose proof (inputs_kept_trans _ _ _ Hin0 Hin1) as Hin01.
  split; [eauto using inputs_kept_trans |].
  destruct Hin01 as (HR & Hz & _).
  split; [| split; [| split]].
  - intros i Hi. now rewrite Hout3, (Hval i Hi), HR, Hz.
  - intros k Hk. rewrite Hout3, (Hframe k Hk), Hout1. reflexivity.
  - exact Hev1.
  - rewrite Htr3, Htr2, Htr1. subst s0. cbn [trace set_trace].
    rewrite <- !app_assoc. reflexivity.
Qed.

(** What a call to [calc_potential] does to the caller's memory. *)
Lemma calc_potential_spec (nR nz npot : Z) s :
  exists sf,
    calc_potential nR nz npot s = (if 1 <=? npot then Ok tt else OutOfBounds, sf)
    /\ inputs_kept s sf
    /\ (forall i j, 0 <= i < nR -> 0 <= j < nz ->
          arr_out sf (i * nz + j)
          = evaluatePotentials (arr_R s i) (arr_z s j) npot (parsed_args npot s))
    /\ (forall k, ~ (0 <= k < nR * nz) -> arr_out sf k = arr_out s k).
Proof.
  destruct (calc_potential_run nR nz npot s)
    as (sf & allocs & Heq & Hin & Hval & Hframe & _).
  exists sf. auto.
Qed.

(** What a call to [eval_potential] does to the caller's memory; no
    scratch row is allocated. *)
Lemma eval_potential_spec (nR npot : Z) s :
  exists sf evs,
    eval_potential nR npot s = (if 1 <=? npot then Ok tt else OutOfBounds, sf)
    /\ inputs_kept s sf
    /\ (forall i, 0 <= i < nR ->
          arr_out sf i
          = evaluatePotentials (arr_R s i) (arr_z s i) npot (parsed_args npot s))
    /\ (forall k, ~ (0 <= k < nR) -> arr_out sf k = arr_out s k)
    /\ trace sf = trace s ++ evs /\ existsb is_malloc_row evs = false.
Proof.
  destruct (eval_potential_run nR npot s)
    as (sf & allocs & Heq & Hin & Hval & Hframe & Hal & Htr).
  eexists sf, _. split; [exact Heq |]. split; [exact Hin |].
  split; [exact Hval |]. split; [exact Hframe |]. split; [exact Htr |].
  rewrite !existsb_app, (alloc_not_malloc_row _ Hal).
  destruct (parsed_args npot s) as [|e rest]; [reflexivity |].
  now rewrite existsb_app, releases_not_malloc_row.
Qed.

(** ** The claims of the specification *)

(** C1 (as the code has it): neither entry point writes the status
    cell.  When [calc_potential] or [eval_potential] stops, [*err] holds
    the value the caller left in it, whatever the type codes are; so it
    is zero after the call exactly when it was zero before. *)
Theorem status_cell_untouched (nR nz npot : Z) s :
  cell_err (final (calc_potential nR nz npot) s) = cell_err s
  /\ cell_err (final (eval_potential nR npot) s) = cell_err s.
Proof.
  unfold final. split.
  - destruct (calc_potential_spec nR nz npot s) as (sf & -> & Hin & _).
    apply Hin.
  - destruct (eval_potential_spec nR npot s) as (sf & evs & -> & Hin & _).
    apply Hin.
Qed.

(** C3: the grid output of [calc_potential] is row-major over the outer
    product of [R] and [z].  For every [0 <= i < nR] and [0 <= j < nz],
    [out[i*nz + j]] is the composite evaluation of the parsed entry list
    at [(R[i], z[j])]. *)
Theorem calc_potential_row_major (nR nz npot : Z) s (i j : Z) :
  0 <= i < nR -> 0 <= j < nz ->
  arr_out (final (calc_potential nR nz npot) s) (i * nz + j)
  = evaluatePotentials (arr_R s i) (arr_z s j) npot (parsed_args npot s).
Proof.
  intros Hi Hj. unfold final.
  destruct (calc_potential_spec nR nz npot s) as (sf & -> & _ & Hval & _).
  now apply Hval.
Qed.

(** C4: [eval_potential] evaluates pairwise.  For every [0 <= i < nR],
    [out[i]] is the composite evaluation of the parsed entry list at
    [(R[i], z[i])]; and the call allocates no scratch row: each value
    is stored straight into [out]. *)
Theorem eval_potential_pairwise (nR npot : Z) s (i : Z) :
  0 <= i < nR ->
  arr_out (final (eval_potential nR npot) s) i
  = evaluatePotentials (arr_R s i) (arr_z s i) npot (parsed_args npot s)
  /\ existsb is_malloc_row (new_events s (final (eval_potential nR npot) s)) = false.
Proof.
  intros Hi. unfold final, new_events.
  destruct (eval_potential_spec nR npot s)
    as (sf & evs & -> & _ & Hval & _ & Htr & Hev).
  split; [now apply Hval |].
  cbn [snd]. now rewrite Htr, drop_app_length.
Qed.

(** C8: the frame of the two entry points.  [calc_potential] leaves
    every cell of [out] outside [0 .. nR*nz - 1] as it was, and
    [eval_potential] every cell outside [0 .. nR - 1]; the output buffer
    is written in place; and the input arrays [R], [z], [pot_type] and
    [pot_args] are the same after the call as before. *)
Theorem entry_points_frame (nR nz npot : Z) s :
  (forall k, ~ (0 <= k < nR * nz) ->
     arr_out (final (calc_potential nR nz npot) s) k = arr_out s k)
  /\ (forall k, ~ (0 <= k < nR) ->
     arr_out (final (eval_potential nR npot) s) k = arr_out s k)
  /\ (let sf := final (calc_potential nR nz npot) s in
      arr_R sf = arr_R s /\ arr_z sf = arr_z s
      /\ arr_pot_type sf = arr_pot_type s /\ arr_pot_args sf = arr_pot_args s)
  /\ (let sf := final (eval_potential nR npot) s in
      arr_R sf = arr_R s /\ arr_z sf = arr_z s
      /\ arr_pot_type sf = arr_pot_type s /\ arr_pot_args sf = arr_pot_args s).
Proof.
  unfold final.
  destruct (calc_potential_spec nR nz npot s) as (sc & -> & Hinc & _ & Hfc).
  destruct (eval_potential_spec nR npot s) as (se & evs & -> & Hine & _ & Hfe & _).
  cbn [snd]. unfold inputs_kept in Hinc, Hine.
  split; [exact Hfc |]. split; [exact Hfe |].
  split; [tauto | tauto].
Qed.

(** C9: the teardown of both entry points reads the first entry of the
    array without a test, so the run stays inside the array of [npot]
    cells exactly when [npot >= 1]: with [npot >= 1] the out-of-bounds
    outcome is not reached, and with [npot <= 0] it is. *)
Theorem first_entry_in_bounds (nR nz npot : Z) s :
  (returns (calc_potential nR nz npot) s = true <-> 1 <= npot)
  /\ (returns (eval_potential nR npot) s = true <-> 1 <= npot).
Proof.
  unfold returns.
  destruct (calc_potential_spec nR nz npot s) as (sc & -> & _).
  destruct (eval_potential_spec nR npot s) as (se & evs & -> & _).
  cbn [fst].
  destruct (Z.leb_spec 1 npot); split; split; intros; try lia; try reflexivity;
    discriminate.
Qed.

(** Adding zeros to [0.] gives [0.]. *)
Lemma dadd_dzero_zero (x : double) : is_zero x = true -> dadd dzero x = dzero.
Proof. destruct x as [[|] | | |]; simpl; intros H; try discriminate; reflexivity. Qed.

Lemma evaluatePotentials_zero (Rv zv : double) (npot : Z) (cells : list potentialArg) :
  (forall e, In e (take (Z.to_nat npot) cells) ->
             is_zero (potentialEval (ptype e) (args e) Rv zv) = true) ->
  evaluatePotentials Rv zv npot cells = dzero.
Proof.
  unfold evaluatePotentials. generalize (take (Z.to_nat npot) cells) as l.
  induction l as [|e l IH]; intros H; [reflexivity |].
  cbn [fold_left]. rewrite dadd_dzero_zero by (apply H; now left).
  apply IH. intros e' He'. apply H. now right.
Qed.

(** C7: a composite whose components evaluate to zero gives a zero
    grid.  If the per-type evaluation function returns a zero at every
    coordinate for each of the [npot] entries, [calc_potential] writes
    [0.] at every [out[i*nz + j]]. *)
Theorem zero_components_zero_grid (nR nz npot : Z) s (i j : Z) :
  (forall e, In e (take (Z.to_nat npot) (parsed_args npot s)) ->
     forall Rv zv, is_zero (potentialEval (ptype e) (args e) Rv zv) = true) ->
  0 <= i < nR -> 0 <= j < nz ->
  arr_out (final (calc_potential nR nz npot) s) (i * nz + j) = dzero.
Proof.
  intros Hzero Hi Hj. unfold final.
  destruct (calc_potential_spec nR nz npot s) as (sf & -> & _ & Hval & _).
  cbn [snd]. rewrite Hval by assumption.
  apply evaluatePotentials_zero. intros e He. now apply Hzero.
Qed.

(** ** Further properties of the two entry points *)

Lemma parsed_args_length (npot : Z) s :
  length (parsed_args npot s) = Z.to_nat npot.
Proof.
  destruct (parse_run npot s s eq_refl eq_refl eq_refl)
    as (s1 & evs & _ & _ & _ & Hlen & _).
  exact Hlen.
Qed.

(** A non-positive row count runs the outer loop as often as zero does:
    not at all. *)
Lemma calc_potential_nonpos_rows (nR nz npot : Z) s :
  nR <= 0 -> calc_potential nR nz npot s = calc_potential 0 nz npot s.
Proof.
  intros H. unfold calc_potential, for_upto.
  replace (Z.to_nat nR) with (Z.to_nat 0) by lia. reflexivity.
Qed.

Lemma calc_writes_nothing (nR nz npot : Z) s :
  nR <= 0 \/ nz <= 0 ->
  forall k, arr_out (final (calc_potential nR nz npot) s) k = arr_out s k.
Proof.
  intros H k. unfold final.
  destruct (Z_le_gt_dec nR 0) as [HnR | HnR].
  - rewrite (calc_potential_nonpos_rows nR nz npot s HnR).
    destruct (calc_potential_spec 0 nz npot s) as (sf & -> & _ & _ & Hframe).
    apply Hframe. lia.
  - destruct (calc_potential_spec nR nz npot s) as (sf & -> & _ & _ & Hframe).
    apply Hframe. nia.
Qed.

(** X1: an empty grid writes nothing.  When [nR <= 0] or [nz <= 0]
    (also when both are negative, where [nR * nz] is positive)
    [calc_potential] leaves every cell of [out] as it was, and so does
    [eval_potential] when [nR <= 0]. *)
Theorem empty_grid_writes_nothing (nR nz npot : Z) s (k : Z) :
  (nR <= 0 \/ nz <= 0 ->
   arr_out (final (calc_potential nR nz npot) s) k = arr_out s k)
  /\ (nR <= 0 ->
      arr_out (final (eval_potential nR npot) s) k = arr_out s k).
Proof.
  split.
  - intros H. now apply calc_writes_nothing.
  - intros H. unfold final.
    destruct (eval_potential_spec nR npot s) as (sf & evs & -> & _ & _ & Hframe & _).
    apply Hframe. lia.
Qed.

Lemma alloc_is_alloc_or_release (evs : list event) :
  forallb is_alloc evs = true ->
  forallb (fun e => is_alloc e || is_release e) evs = true.
Proof.
  induction evs as [|e evs IH]; [reflexivity |]. simpl.
  intros H. apply andb_true_iff in H as [He Hevs].
  now rewrite He, (IH Hevs).
Qed.

Lemma releases_is_alloc_or_release (e : potentialArg) :
  forallb (fun e => is_alloc e || is_release e) (releases e) = true.
Proof. unfold releases. now destruct (i2d e), (acc e). Qed.

(** X2: what a returning call does with the memory it allocates.  With
    [npot >= 1], [calc_potential] allocates the scratch row (of [nz]
    doubles) once, before anything else and however many rows the grid
    has, then the entry array (of [npot] cells); the last two calls of
    the run free the array and then the row, and in between there are
    only calls that allocate or release tables and accelerators.
    [eval_potential] allocates the array first and frees it last. *)
Theorem allocations_are_balanced (nR nz npot : Z) s :
  1 <= npot ->
  (exists mid,
     new_events s (final (calc_potential nR nz npot) s)
     = Malloc_row nz :: Malloc_args npot :: mid ++ [Free_args; Free_row]
     /\ forallb (fun e => is_alloc e || is_release e) mid = true)
  /\ (exists mid,
        new_events s (final (eval_potential nR npot) s)
        = Malloc_args npot :: mid ++ [Free_args]
        /\ forallb (fun e => is_alloc e || is_release e) mid = true).
Proof.
  intros Hnpot. unfold final, new_events.
  destruct (calc_potential_run nR nz npot s) as (sc & ac & -> & _ & _ & _ & Hac & Htc).
  destruct (eval_potential_run nR npot s) as (se & ae & -> & _ & _ & _ & Hae & Hte).
  cbn [snd]. rewrite Htc, Hte, !drop_app_length.
  pose proof (parsed_args_length npot s) as Hlen.
  destruct (parsed_args npot s) as [|e rest]; [simpl in Hlen; lia |].
  split.
  - exists (ac ++ releases e). split.
    + cbn [app]. now rewrite <- !app_assoc.
    + rewrite forallb_app, (alloc_is_alloc_or_release _ Hac).
      apply releases_is_alloc_or_release.
  - exists (ae ++ releases e). split.
    + cbn [app]. now rewrite <- !app_assoc.
    + rewrite forallb_app, (alloc_is_alloc_or_release _ Hae).
      apply releases_is_alloc_or_release.
Qed.

(** X8: the release calls of a returning run.  With [npot >= 1] the
    release calls either entry point makes are the ones for the first
    entry of the array, its table and then its accelerator, each if the
    entry has one; no table or accelerator held only by a later entry is
    released. *)
Theorem release_calls_when_returning (nR nz npot : Z) s :
  1 <= npot ->
  exists e rest,
    parsed_args npot s = e :: rest
    /\ filter (fun ev => is_release ev = true)
              (new_events s (final (calc_potential nR nz npot) s)) = releases e
    /\ filter (fun ev => is_release ev = true)
              (new_events s (final (eval_potential nR npot) s)) = releases e.
Proof.
  intros Hnpot. unfold final, new_events.
  destruct (calc_potential_run nR nz npot s) as (sc & ac & -> & _ & _ & _ & Hac & Htc).
  destruct (eval_potential_run nR npot s) as (se & ae & -> & _ & _ & _ & Hae & Hte).
  cbn [snd]. rewrite Htc, Hte, !drop_app_length.
  pose proof (parsed_args_length npot s) as Hlen.
  destruct (parsed_args npot s) as [|e rest]; [simpl in Hlen; lia |].
  exists e, rest. split; [reflexivity |].
  assert (Hrel : filter (fun ev => is_release ev = true) (releases e) = releases e).
  { unfold releases. now destruct (i2d e), (acc e). }
  split.
  - cbn [app]. rewrite !filter_cons_False by (cbn; discriminate).
    rewrite filter_app, (alloc_not_release _ Hac), filter_app, Hrel.
    cbn. apply app_nil_r.
  - cbn [app]. rewrite !filter_cons_False by (cbn; discriminate).
    rewrite filter_app, (alloc_not_release _ Hae), filter_app, Hrel.
    cbn. apply app_nil_r.
Qed.

Lemma calc_inputs_kept (nR nz npot : Z) s :
  inputs_kept s (final (calc_potential nR nz npot) s).
Proof.
  unfold final. now destruct (calc_potential_spec nR nz npot s) as (sf & -> & Hin & _).
Qed.

Lemma eval_inputs_kept (nR npot : Z) s :
  inputs_kept s (final (eval_potential nR npot) s).
Proof.
  unfold final. now destruct (eval_potential_spec nR npot s) as (sf & ? & -> & Hin & _).
Qed.

(** An index is a cell [i*nz + j] of the grid, or it is outside the
    part of [out] the grid walk writes. *)
Lemma grid_index_cases (nR nz k : Z) :
  (exists i j, 0 <= i < nR /\ 0 <= j < nz /\ k = i * nz + j)
  \/ (nR <= 0 \/ nz <= 0 \/ ~ (0 <= k < nR * nz)).
Proof.
  destruct (Z_le_gt_dec nR 0) as [HnR | HnR]; [right; lia |].
  destruct (Z_le_gt_dec nz 0) as [Hnz | Hnz]; [right; lia |].
  destruct (Z_le_gt_dec 0 k) as [Hk0 | Hk0]; [| right; lia].
  destruct (Z_lt_ge_dec k (nR * nz)) as [Hk1 | Hk1]; [| right; lia].
  left. exists (k / nz), (k mod nz).
  pose proof (Z.mod_pos_bound k nz ltac:(lia)) as Hmod.
  split; [| split; [exact Hmod |]].
  - split; [apply Z.div_pos; lia |].
    apply Z.div_lt_upper_bound; [lia |]. now rewrite Z.mul_comm.
  - rewrite (Z.mul_comm (k / nz)). apply Z.div_mod. lia.
Qed.

Lemma calc_unwritten (nR nz npot : Z) s (k : Z) :
  nR <= 0 \/ nz <= 0 \/ ~ (0 <= k < nR * nz) ->
  arr_out (final (calc_potential nR nz npot) s) k = arr_out s k.
Proof.
  intros [H | [H | H]].
  - apply calc_writes_nothing. now left.
  - apply calc_writes_nothing. now right.
  - unfold final.
    destruct (calc_potential_spec nR nz npot s) as (sf & -> & _ & _ & Hframe).
    now apply Hframe.
Qed.

End Properties.

(** ** Two calls

    Each call allocates its own entry array and its own scratch row, and
    what these hold before the call writes them is the call's own.  The
    statements that compare two calls therefore run them on two
    libraries with the same constructors and evaluation functions and
    with different fresh cells. *)

Section TwoCalls.

Variable ctors : Z -> option ctor.
Variable evalf : Z -> list double -> double -> double -> double.
Variables junk1 junk2 : potentialArg.
Variables row1 row2 : Z -> double.

Local Abbreviation call1 := (mkExternals ctors evalf junk1 row1).
Local Abbreviation call2 := (mkExternals ctors evalf junk2 row2).

(** With every type code recognised, the tags and parameters of the
    parsed entries of two calls agree when the calls agree on the
    [npot] type codes and on the parameters these take. *)
Lemma parsed_args_view (npot : Z) s1 s2 :
  all_recognised ctors npot (arr_pot_type s1) ->
  (forall k, 0 <= k < npot -> arr_pot_type s1 k = arr_pot_type s2 k) ->
  (forall q, 0 <= q < params_consumed (ext := call1) (Z.to_nat npot) 0 (arr_pot_type s1) ->
             arr_pot_args s1 q = arr_pot_args s2 q) ->
  map cell_view (parsed_args (ext := call1) npot s1)
  = map cell_view (parsed_args (ext := call2) npot s2).
Proof.
  intros Hknown Hty Har.
  unfold parsed_args.
  rewrite (bind_ok _ _ _ _ _ (malloc_args_run (ext := call1) npot s1)).
  rewrite (bind_ok _ _ _ _ _ (malloc_args_run (ext := call2) npot s2)).
  unfold parse_actionAngleArgs.
  change (parse_loop (ext := call2)) with (parse_loop (ext := call1)).
  apply (parse_loop_overwrites (ext := call1)).
  - rewrite length_replicate. reflexivity.
  - rewrite length_replicate. reflexivity.
  - reflexivity.
  - intros i Hi. apply Hty. lia.
  - intros i Hi. apply Hknown. lia.
  - intros q Hq. apply Har. exact Hq.
Qed.

(** The values [calc_potential] writes are determined by the declared
    part of its inputs. *)
Lemma calc_out_agree (nR nz npot : Z) s1 s2 (i j : Z) :
  all_recognised ctors npot (arr_pot_type s1) ->
  (forall k, 0 <= k < npot -> arr_pot_type s1 k = arr_pot_type s2 k) ->
  (forall q, 0 <= q < params_consumed (ext := call1) (Z.to_nat npot) 0 (arr_pot_type s1) ->
             arr_pot_args s1 q = arr_pot_args s2 q) ->
  arr_R s1 i = arr_R s2 i -> arr_z s1 j = arr_z s2 j ->
  0 <= i < nR -> 0 <= j < nz ->
  arr_out (final (calc_potential (ext := call1) nR nz npot) s1) (i * nz + j)
  = arr_out (final (calc_potential (ext := call2) nR nz npot) s2) (i * nz + j).
Proof.
  intros Hknown Hty Har HR Hz Hi Hj. unfold final.
  destruct (calc_potential_spec (ext := call1) nR nz npot s1) as (f1 & -> & _ & Hv1 & _).
  destruct (calc_potential_spec (ext := call2) nR nz npot s2) as (f2 & -> & _ & Hv2 & _).
  cbn [snd]. rewrite Hv1, Hv2, HR, Hz by assumption.
  change (evaluatePotentials (ext := call2)) with (evaluatePotentials (ext := call1)).
  apply evaluatePotentials_view. now apply parsed_args_view.
Qed.

(** The same for [eval_potential]. *)
Lemma eval_out_agree (nR npot : Z) s1 s2 (i : Z) :
  all_recognised ctors npot (arr_pot_type s1) ->
  (forall k, 0 <= k < npot -> arr_pot_type s1 k = arr_pot_type s2 k) ->
  (forall q, 0 <= q < params_consumed (ext := call1) (Z.to_nat npot) 0 (arr_pot_type s1) ->
             arr_pot_args s1 q = arr_pot_args s2 q) ->
  arr_R s1 i = arr_R s2 i -> arr_z s1 i = arr_z s2 i ->
  0 <= i < nR ->
  arr_out (final (eval_potential (ext := call1) nR npot) s1) i
  = arr_out (final (eval_potential (ext := call2) nR npot) s2) i.
Proof.
  intros Hknown Hty Har HR Hz Hi. unfold final.
  destruct (eval_potential_spec (ext := call1) nR npot s1) as (f1 & ? & -> & _ & Hv1 & _).
  destruct (eval_potential_spec (ext := call2) nR npot s2) as (f2 & ? & -> & _ & Hv2 & _).
  cbn [snd]. rewrite Hv1, Hv2, HR, Hz by assumption.
  change (evaluatePotentials (ext := call2)) with (evaluatePotentials (ext := call1)).
  apply evaluatePotentials_view. now apply parsed_args_view.
Qed.

(** C5 (as the code has it): the grid and the paired entry point are
    consistent on descriptors whose [npot] type codes are all
    recognised.  The value [calc_potential] writes at [out[i*nz + j]] is
    the value [eval_potential] writes at [out[0]] when it is called on
    the single pair [(R[i], z[j])] with the same descriptors, whatever
    else the state of that call and its fresh cells are. *)
Theorem calc_eval_consistent (nR nz npot : Z) s s1 (i j : Z) :
  all_recognised ctors npot (arr_pot_type s) ->
  0 <= i < nR -> 0 <= j < nz ->
  arr_pot_type s1 = arr_pot_type s -> arr_pot_args s1 = arr_pot_args s ->
  arr_R s1 0 = arr_R s i -> arr_z s1 0 = arr_z s j ->
  arr_out (final (calc_potential (ext := call1) nR nz npot) s) (i * nz + j)
  = arr_out (final (eval_potential (ext := call2) 1 npot) s1) 0.
Proof.
  intros Hknown Hi Hj Hty Har HR Hz. unfold final.
  destruct (calc_potential_spec (ext := call1) nR nz npot s) as (fc & -> & _ & Hvc & _).
  destruct (eval_potential_spec (ext := call2) 1 npot s1) as (fe & ? & -> & _ & Hve & _).
  cbn [snd]. rewrite Hvc, Hve, HR, Hz by (assumption || lia).
  change (evaluatePotentials (ext := call2)) with (evaluatePotentials (ext := call1)).
  apply evaluatePotentials_view, parsed_args_view; [exact Hknown | |].
  - intros k _. now rewrite Hty.
  - intros q _. now rewrite Har.
Qed.

(** C6 (as the code has it): two invocations on identical inputs whose
    [npot] type codes are all recognised write identical outputs.  The
    two calls have the same [nR], [nz], [npot], coordinate arrays and
    descriptors; the rest of the two states (output buffer before the
    call, status cell, allocator, trace of earlier calls) and the fresh
    cells of the two calls are arbitrary. *)
Theorem same_inputs_same_output (nR nz npot : Z) s s' (i j : Z) :
  all_recognised ctors npot (arr_pot_type s) ->
  arr_R s' = arr_R s -> arr_z s' = arr_z s ->
  arr_pot_type s' = arr_pot_type s -> arr_pot_args s' = arr_pot_args s ->
  0 <= i < nR -> 0 <= j < nz ->
  arr_out (final (calc_potential (ext := call1) nR nz npot) s) (i * nz + j)
  = arr_out (final (calc_potential (ext := call2) nR nz npot) s') (i * nz + j)
  /\ arr_out (final (eval_potential (ext := call1) nR npot) s) i
     = arr_out (final (eval_potential (ext := call2) nR npot) s') i.
Proof.
  intros Hknown HR Hz Hty Har Hi Hj. split.
  - apply calc_out_agree; try assumption.
    + intros k _. now rewrite Hty.
    + intros q _. now rewrite Har.
    + now rewrite HR.
    + now rewrite Hz.
  - apply eval_out_agree; try assumption.
    + intros k _. now rewrite Hty.
    + intros q _. now rewrite Har.
    + now rewrite HR.
    + now rewrite Hz.
Qed.

(** C10 (as the code has it): with all [npot] type codes recognised, the
    entry points read nothing beyond the declared counts.  Two calls
    that agree on [nR], [nz], [npot], on the first [npot] type codes and
    the parameters these take, on the first [nR] elements of [R] and on
    the first [nz] elements of [z] (the first [nR] for [eval_potential])
    write the same values, whatever the rest of the two states and the
    fresh cells of the two calls are. *)
Theorem output_depends_on_declared_inputs (nR nz npot : Z) s1 s2 :
  all_recognised ctors npot (arr_pot_type s1) ->
  (forall k, 0 <= k < npot -> arr_pot_type s1 k = arr_pot_type s2 k) ->
  (forall q, 0 <= q < params_consumed (ext := call1) (Z.to_nat npot) 0 (arr_pot_type s1) ->
             arr_pot_args s1 q = arr_pot_args s2 q) ->
  (forall i, 0 <= i < nR -> arr_R s1 i = arr_R s2 i) ->
  ((forall j, 0 <= j < nz -> arr_z s1 j = arr_z s2 j) ->
   forall i j, 0 <= i < nR -> 0 <= j < nz ->
     arr_out (final (calc_potential (ext := call1) nR nz npot) s1) (i * nz + j)
     = arr_out (final (calc_potential (ext := call2) nR nz npot) s2) (i * nz + j))
  /\ ((forall i, 0 <= i < nR -> arr_z s1 i = arr_z s2 i) ->
      forall i, 0 <= i < nR ->
        arr_out (final (eval_potential (ext := call1) nR npot) s1) i
        = arr_out (final (eval_potential (ext := call2) nR npot) s2) i).
Proof.
  intros Hknown Hty Har HR. split.
  - intros Hz i j Hi Hj. apply calc_out_agree; auto.
  - intros Hz i Hi. apply eval_out_agree; auto.
Qed.

(** X3: the diagonal of the grid is the paired evaluation.  On the same
    coordinate arrays and on descriptors whose [npot] type codes are
    all recognised, the value [eval_potential] writes at [out[i]] is the
    value [calc_potential] writes at [out[i*nz + i]], for every [i]
    below [nR], [nz] and the length of the paired call. *)
Theorem eval_is_grid_diagonal (nR nR' nz npot : Z) s s' (i : Z) :
  all_recognised ctors npot (arr_pot_type s) ->
  arr_R s' = arr_R s -> arr_z s' = arr_z s ->
  arr_pot_type s' = arr_pot_type s -> arr_pot_args s' = arr_pot_args s ->
  0 <= i < nR -> i < nz -> i < nR' ->
  arr_out (final (calc_potential (ext := call1) nR nz npot) s) (i * nz + i)
  = arr_out (final (eval_potential (ext := call2) nR' npot) s') i.
Proof.
  intros Hknown HR Hz Hty Har Hi Hiz Hi'. unfold final.
  destruct (calc_potential_spec (ext := call1) nR nz npot s) as (fc & -> & _ & Hvc & _).
  destruct (eval_potential_spec (ext := call2) nR' npot s') as (fe & ? & -> & _ & Hve & _).
  cbn [snd]. rewrite Hvc, Hve, HR, Hz by lia.
  change (evaluatePotentials (ext := call2)) with (evaluatePotentials (ext := call1)).
  apply evaluatePotentials_view, parsed_args_view; [exact Hknown | |].
  - intros k _. now rewrite Hty.
  - intros q _. now rewrite Har.
Qed.

(** X4: a cell depends on its own coordinates only.  If two calls agree
    on descriptors whose [npot] type codes are all recognised, on
    [R[i]] and on [z[j]], they write the same value at [out[i*nz + j]],
    whatever the other coordinates are; and two paired calls that agree
    on [R[i]] and [z[i]] write the same [out[i]]. *)
Theorem cell_depends_on_own_coordinates (nR nz npot : Z) s1 s2 (i j : Z) :
  all_recognised ctors npot (arr_pot_type s1) ->
  arr_pot_type s1 = arr_pot_type s2 -> arr_pot_args s1 = arr_pot_args s2 ->
  arr_R s1 i = arr_R s2 i ->
  0 <= i < nR ->
  (arr_z s1 j = arr_z s2 j -> 0 <= j < nz ->
   arr_out (final (calc_potential (ext := call1) nR nz npot) s1) (i * nz + j)
   = arr_out (final (calc_potential (ext := call2) nR nz npot) s2) (i * nz + j))
  /\ (arr_z s1 i = arr_z s2 i ->
      arr_out (final (eval_potential (ext := call1) nR npot) s1) i
      = arr_out (final (eval_potential (ext := call2) nR npot) s2) i).
Proof.
  intros Hknown Hty Har HR Hi. split.
  - intros Hz Hj. apply calc_out_agree; try assumption.
    + intros k _. now rewrite Hty.
    + intros q _. now rewrite Har.
  - intros Hz. apply eval_out_agree; try assumption.
    + intros k _. now rewrite Hty.
    + intros q _. now rewrite Har.
Qed.

(** X5: asking for more rows does not change the earlier ones.  With
    the same [nz] and all [npot] type codes recognised, the rows that a
    call on [nR] rows and a call on [nR'] rows both compute hold the
    same values; likewise the common prefix of two paired calls. *)
Theorem common_rows_agree (nR nR' nz npot : Z) s (i j : Z) :
  all_recognised ctors npot (arr_pot_type s) ->
  0 <= i < nR -> i < nR' -> 0 <= j < nz ->
  arr_out (final (calc_potential (ext := call1) nR nz npot) s) (i * nz + j)
  = arr_out (final (calc_potential (ext := call2) nR' nz npot) s) (i * nz + j)
  /\ arr_out (final (eval_potential (ext := call1) nR npot) s) i
     = arr_out (final (eval_potential (ext := call2) nR' npot) s) i.
Proof.
  intros Hknown Hi Hi' Hj. unfold final.
  destruct (calc_potential_spec (ext := call1) nR nz npot s) as (f1 & -> & _ & Hv1 & _).
  destruct (calc_potential_spec (ext := call2) nR' nz npot s) as (f2 & -> & _ & Hv2 & _).
  destruct (eval_potential_spec (ext := call1) nR npot s) as (e1 & ? & -> & _ & Hw1 & _).
  destruct (eval_potential_spec (ext := call2) nR' npot s) as (e2 & ? & -> & _ & Hw2 & _).
  cbn [snd]. rewrite Hv1, Hv2, Hw1, Hw2 by lia.
  change (evaluatePotentials (ext := call2)) with (evaluatePotentials (ext := call1)).
  assert (Hview : map cell_view (parsed_args (ext := call1) npot s)
                  = map cell_view (parsed_args (ext := call2) npot s))
    by (apply parsed_args_view; [exact Hknown | reflexivity | reflexivity]).
  split; now apply evaluatePotentials_view.
Qed.

(** X6: calling again on the same buffers changes nothing.  With
    [npot >= 1] and all [npot] type codes recognised, run an entry point
    a second time from the state the first run left, with the same
    output buffer and with fresh cells of its own: every cell of [out],
    written or not, is as the first run left it. *)
Theorem second_run_keeps_buffer (nR nz npot : Z) s (k : Z) :
  1 <= npot ->
  all_recognised ctors npot (arr_pot_type s) ->
  (let s1 := final (calc_potential (ext := call1) nR nz npot) s in
   arr_out (final (calc_potential (ext := call2) nR nz npot) s1) k = arr_out s1 k)
  /\ (let s1 := final (eval_potential (ext := call1) nR npot) s in
      arr_out (final (eval_potential (ext := call2) nR npot) s1) k = arr_out s1 k).
Proof.
  intros _ Hknown. cbv zeta. split.
  - destruct (grid_index_cases nR nz k) as [(i & j & Hi & Hj & ->) | Hout];
      [| now apply calc_unwritten].
    destruct (calc_inputs_kept (ext := call1) nR nz npot s) as (HR & Hz & Hty & Har & _).
    symmetry. apply calc_out_agree; try assumption.
    + intros q _. now rewrite Hty.
    + intros q _. now rewrite Har.
    + now rewrite HR.
    + now rewrite Hz.
  - destruct (Z_le_gt_dec 0 k) as [Hk0 | Hk0], (Z_lt_ge_dec k nR) as [Hk1 | Hk1].
    2-4: unfold final at 1;
         destruct (eval_potential_spec (ext := call2) nR npot
                     (final (eval_potential (ext := call1) nR npot) s))
           as (f2 & ? & -> & _ & _ & Hframe & _); apply Hframe; lia.
    destruct (eval_inputs_kept (ext := call1) nR npot s) as (HR & Hz & Hty & Har & _).
    symmetry. apply eval_out_agree; try assumption; try lia.
    + intros q _. now rewrite Hty.
    + intros q _. now rewrite Har.
    + now rewrite HR.
    + now rewrite Hz.
Qed.

End TwoCalls.

(** X7: what the freshly allocated scratch row holds never reaches the
    output.  The inner loop writes all [nz] cells of the row before
    [put_row] copies [nz] cells of it, so the final output buffer is the
    same for any two initial contents of the row. *)
Theorem scratch_row_contents_irrelevant
    (ctors : Z -> option ctor)
    (evalf : Z -> list double -> double -> double -> double)
    (junk : potentialArg) (row1 row2 : Z -> double)
    (nR nz npot : Z) s (k : Z) :
  arr_out (final (calc_potential (ext := mkExternals ctors evalf junk row1) nR nz npot) s) k
  = arr_out (final (calc_potential (ext := mkExternals ctors evalf junk row2) nR nz npot) s) k.
Proof.
  destruct (grid_index_cases nR nz k) as [(i & j & Hi & Hj & ->) | Hout].
  - unfold final.
    destruct (calc_potential_spec (ext := mkExternals ctors evalf junk row1) nR nz npot s)
      as (f1 & -> & _ & Hv1 & _).
    destruct (calc_potential_spec (ext := mkExternals ctors evalf junk row2) nR nz npot s)
      as (f2 & -> & _ & Hv2 & _).
    cbn [snd]. rewrite Hv1, Hv2 by assumption. reflexivity.
  - now rewrite !calc_unwritten.
Qed.

(** ** The entry points on the sample library *)

(** The layout of a 2 x 3 grid: the six cells are the values at
    [(R0,z0)], [(R0,z1)], [(R0,z2)], [(R1,z0)], [(R1,z1)], [(R1,z2)], in
    this order, and the seventh cell is not written.  The sample type 0
    evaluates to [5 + R + 2 z]: 8, 10, 12, 9, 11, 13. *)
Example grid_layout_2x3 :
  let E := fun Rv zv =>
    evaluatePotentials (ext := Sample.lib) Rv zv 1
      (parsed_args (ext := Sample.lib) 1 Sample.grid_call) in
  map (arr_out (final (calc_potential (ext := Sample.lib) 2 3 1) Sample.grid_call))
      [0; 1; 2; 3; 4; 5; 6]
  = [ E Sample.d1 Sample.d1; E Sample.d1 Sample.d2; E Sample.d1 Sample.d3;
      E Sample.d2 Sample.d1; E Sample.d2 Sample.d2; E Sample.d2 Sample.d3;
      S754_nan ]
  /\ map (E Sample.d1) [Sample.d1; Sample.d2; Sample.d3]
       ++ map (E Sample.d2) [Sample.d1; Sample.d2; Sample.d3]
     = [ S754_finite false 4503599627370496 (-49);
         S754_finite false 5629499534213120 (-49);
         S754_finite false 6755399441055744 (-49);
         S754_finite false 5066549580791808 (-49);
         S754_finite false 6192449487634432 (-49);
         S754_finite false 7318349394477056 (-49) ].
Proof. split; vm_compute; reflexivity. Qed.

(** With no component the teardown reads past the (empty) array. *)
Example npot_zero_out_of_bounds :
  returns (calc_potential (ext := Sample.lib) 2 3 0) Sample.grid_call = false
  /\ returns (eval_potential (ext := Sample.lib) 2 0) Sample.grid_call = false.
Proof. split; vm_compute; reflexivity. Qed.

(** C1 (as stated) fails: a call whose type codes contain the
    unrecognised code -1 returns with the status cell still zero, for
    both entry points. *)
Lemma unknown_code_status_zero :
  @pot_ctor Sample.lib (arr_pot_type Sample.unknown_code 1) = None
  /\ returns (calc_potential (ext := Sample.lib) 0 0 2) Sample.unknown_code = true
  /\ cell_err (final (calc_potential (ext := Sample.lib) 0 0 2) Sample.unknown_code) = 0
  /\ returns (eval_potential (ext := Sample.lib) 0 2) Sample.unknown_code = true
  /\ cell_err (final (eval_potential (ext := Sample.lib) 0 2) Sample.unknown_code) = 0.
Proof. repeat split; vm_compute; reflexivity. Qed.

(** C2 (the code at a failing input): with two table-backed components
    the parser allocates table 1 and accelerator 2 for the first entry
    and table 3 and accelerator 4 for the second; the teardown of both
    entry points releases 1 and 2 and frees the array, and never
    releases 3 and 4. *)
Theorem teardown_releases_first_entry_only :
  parsed_args (ext := Sample.lib) 2 Sample.two_tables
  = [ mkArg 13 [Sample.d5; Sample.d1] (Some 1%positive) (Some 2%positive);
      mkArg 13 [Sample.d2; Sample.d3] (Some 3%positive) (Some 4%positive) ]
  /\ trace (final (calc_potential (ext := Sample.lib) 0 0 2) Sample.two_tables)
     = [ Malloc_row 0; Malloc_args 2;
         Interp_2d_alloc 1%positive; Accel_alloc 2%positive; Interp_2d_alloc 3%positive; Accel_alloc 4%positive;
         Interp_2d_free 1%positive; Accel_free 2%positive; Free_args; Free_row ]
  /\ trace (final (eval_potential (ext := Sample.lib) 0 2) Sample.two_tables)
     = [ Malloc_args 2;
         Interp_2d_alloc 1%positive; Accel_alloc 2%positive; Interp_2d_alloc 3%positive; Accel_alloc 4%positive;
         Interp_2d_free 1%positive; Accel_free 2%positive; Free_args ].
Proof. repeat split; vm_compute; reflexivity. Qed.

Lemma calc_potential_row_major_witness :
  0 <= 1 < 2 /\ 0 <= 2 < 3
  /\ arr_out (final (calc_potential (ext := Sample.lib) 2 3 1) Sample.grid_call) (1 * 3 + 2)
     = evaluatePotentials (ext := Sample.lib)
         (arr_R Sample.grid_call 1) (arr_z Sample.grid_call 2) 1
         (parsed_args (ext := Sample.lib) 1 Sample.grid_call).
Proof.
  split; [lia |]. split; [lia |].
  apply (calc_potential_row_major (ext := Sample.lib) 2 3 1 Sample.grid_call 1 2); lia.
Defined.

Lemma eval_potential_pairwise_witness :
  0 <= 1 < 2
  /\ arr_out (final (eval_potential (ext := Sample.lib) 2 1) Sample.grid_call) 1
     = evaluatePotentials (ext := Sample.lib)
         (arr_R Sample.grid_call 1) (arr_z Sample.grid_call 1) 1
         (parsed_args (ext := Sample.lib) 1 Sample.grid_call)
  /\ existsb is_malloc_row
       (new_events Sample.grid_call
          (final (eval_potential (ext := Sample.lib) 2 1) Sample.grid_call)) = false.
Proof.
  split; [lia |].
  apply (eval_potential_pairwise (ext := Sample.lib) 2 1 Sample.grid_call 1); lia.
Defined.

Lemma zero_components_zero_grid_witness :
  arr_out (final (calc_potential (ext := Sample.null_lib) 2 3 2) Sample.two_components)
          (1 * 3 + 2)
  = dzero.
Proof.
  apply (zero_components_zero_grid (ext := Sample.null_lib) 2 3 2 Sample.two_components 1 2);
    [intros e He Rv zv; reflexivity | lia | lia].
Defined.

Lemma allocations_are_balanced_witness :
  1 <= 1
  /\ (exists mid,
        new_events Sample.grid_call
          (final (calc_potential (ext := Sample.lib) 2 3 1) Sample.grid_call)
        = Malloc_row 3 :: Malloc_args 1 :: mid ++ [Free_args; Free_row]
        /\ forallb (fun e => is_alloc e || is_release e) mid = true)
  /\ (exists mid,
        new_events Sample.grid_call
          (final (eval_potential (ext := Sample.lib) 2 1) Sample.grid_call)
        = Malloc_args 1 :: mid ++ [Free_args]
        /\ forallb (fun e => is_alloc e || is_release e) mid = true).
Proof.
  split; [lia |].
  apply (allocations_are_balanced (ext := Sample.lib) 2 3 1 Sample.grid_call); lia.
Defined.

(** C5 (as stated) fails: with the unrecognised code -1 among the type
    codes, the second entry stays as allocated, and a grid call and a
    paired call on the same point and descriptors whose fresh cells
    differ write different values. *)
Lemma grid_and_pair_differ_on_unknown_code :
  @pot_ctor Sample.lib (arr_pot_type Sample.unknown_code_point 1) = None
  /\ arr_out (final (calc_potential (ext := Sample.lib) 1 1 2) Sample.unknown_code_point)
             (0 * 1 + 0)
     <> arr_out (final (eval_potential (ext := Sample.lib_other_heap) 1 2)
                       Sample.unknown_code_point) 0.
Proof. split; vm_compute; [reflexivity | discriminate]. Qed.

(** C6 (as stated) fails: two invocations of the same entry point on
    identical inputs that contain the unrecognised code -1 write
    different values when the cells their arrays are allocated in hold
    different contents. *)
Lemma identical_calls_differ_on_unknown_code :
  @pot_ctor Sample.lib (arr_pot_type Sample.unknown_code_point 1) = None
  /\ arr_out (final (calc_potential (ext := Sample.lib) 1 1 2) Sample.unknown_code_point) 0
     <> arr_out (final (calc_potential (ext := Sample.lib_other_heap) 1 1 2)
                       Sample.unknown_code_point) 0
  /\ arr_out (final (eval_potential (ext := Sample.lib) 1 2) Sample.unknown_code_point) 0
     <> arr_out (final (eval_potential (ext := Sample.lib_other_heap) 1 2)
                       Sample.unknown_code_point) 0.
Proof. repeat split; vm_compute; try reflexivity; discriminate. Qed.

(** C10 (as stated) fails: two calls that agree on every declared input
    (here on the whole caller state), with the unrecognised code -1
    among the type codes, write different values when other memory, the
    contents of the freshly allocated entry array, differs. *)
Lemma undeclared_heap_changes_output :
  @pot_ctor Sample.lib (arr_pot_type Sample.unknown_code_point 1) = None
  /\ uninit_arg (Externals := Sample.lib) <> uninit_arg (Externals := Sample.lib_other_heap)
  /\ arr_out (final (calc_potential (ext := Sample.lib) 1 1 2) Sample.unknown_code_point) 0
     <> arr_out (final (calc_potential (ext := Sample.lib_other_heap) 1 1 2)
                       Sample.unknown_code_point) 0
  /\ arr_out (final (eval_potential (ext := Sample.lib) 1 2) Sample.unknown_code_point) 0
     <> arr_out (final (eval_potential (ext := Sample.lib_other_heap) 1 2)
                       Sample.unknown_code_point) 0.
Proof. repeat split; vm_compute; try reflexivity; discriminate. Qed.

(** The one type code of the sample grid call is recognised. *)
Ltac grid_call_recognised :=
  let k := fresh "k" in
  let Hk := fresh "Hk" in
  intros k Hk; assert (k = 0) as -> by lia; vm_compute; discriminate.

Lemma calc_eval_consistent_witness :
  arr_out (final (calc_potential (ext := Sample.lib) 2 3 1) Sample.grid_call) (1 * 3 + 2)
  = arr_out (final (eval_potential (ext := Sample.lib_other_heap) 1 1) Sample.pair_call) 0.
Proof.
  apply (calc_eval_consistent Sample.ctor_of Sample.eval_of
           (mkArg 0 [] None None) (mkArg 0 [Sample.d5] None None)
           (fun _ => S754_nan) (fun _ => dzero)
           2 3 1 Sample.grid_call Sample.pair_call 1 2);
    try lia; try reflexivity; grid_call_recognised.
Defined.

Lemma same_inputs_same_output_witness :
  arr_out (final (calc_potential (ext := Sample.lib) 2 3 1) Sample.grid_call) (1 * 3 + 2)
  = arr_out (final (calc_potential (ext := Sample.lib_other_heap) 2 3 1)
                   Sample.grid_call_again) (1 * 3 + 2)
  /\ arr_out (final (eval_potential (ext := Sample.lib) 2 1) Sample.grid_call) 1
     = arr_out (final (eval_potential (ext := Sample.lib_other_heap) 2 1)
                      Sample.grid_call_again) 1.
Proof.
  apply (same_inputs_same_output Sample.ctor_of Sample.eval_of
           (mkArg 0 [] None None) (mkArg 0 [Sample.d5] None None)
           (fun _ => S754_nan) (fun _ => dzero)
           2 3 1 Sample.grid_call Sample.grid_call_again 1 2);
    try lia; try reflexivity; grid_call_recognised.
Defined.

Lemma output_depends_on_declared_inputs_witness :
  arr_out (final (calc_potential (ext := Sample.lib) 2 3 1) Sample.grid_call) (1 * 3 + 2)
  = arr_out (final (calc_potential (ext := Sample.lib_other_heap) 2 3 1)
                   Sample.grid_call_padded) (1 * 3 + 2)
  /\ arr_out (final (eval_potential (ext := Sample.lib) 2 1) Sample.grid_call) 1
     = arr_out (final (eval_potential (ext := Sample.lib_other_heap) 2 1)
                      Sample.grid_call_padded) 1.
Proof.
  destruct (output_depends_on_declared_inputs Sample.ctor_of Sample.eval_of
              (mkArg 0 [] None None) (mkArg 0 [Sample.d5] None None)
              (fun _ => S754_nan) (fun _ => dzero)
              2 3 1 Sample.grid_call Sample.grid_call_padded) as [Hcalc Heval].
  - grid_call_recognised.
  - intros k Hk. assert (k = 0) as -> by lia. reflexivity.
  - intros q Hq. change (0 <= q < 1) in Hq. assert (q = 0) as -> by lia. reflexivity.
  - intros i Hi. assert (i = 0 \/ i = 1) as [-> | ->] by lia; reflexivity.
  - split.
    + apply Hcalc; try lia.
      intros j Hj. assert (j = 0 \/ j = 1 \/ j = 2) as [-> | [-> | ->]] by lia; reflexivity.
    + apply Heval; try lia.
      intros i Hi. assert (i = 0 \/ i = 1) as [-> | ->] by lia; reflexivity.
Defined.

Lemma release_calls_when_returning_witness :
  exists e rest,
    parsed_args (ext := Sample.lib) 2 Sample.two_tables = e :: rest
    /\ filter (fun ev => is_release ev = true)
              (new_events Sample.two_tables
                 (final (calc_potential (ext := Sample.lib) 0 0 2) Sample.two_tables))
       = releases e
    /\ filter (fun ev => is_release ev = true)
              (new_events Sample.two_tables
                 (final (eval_potential (ext := Sample.lib) 0 2) Sample.two_tables))
       = releases e.
Proof.
  apply (release_calls_when_returning (ext := Sample.lib) 0 0 2 Sample.two_tables); lia.
Defined.

Lemma eval_is_grid_diagonal_witness :
  arr_out (final (calc_potential (ext := Sample.lib) 2 3 1) Sample.grid_call) (1 * 3 + 1)
  = arr_out (final (eval_potential (ext := Sample.lib_other_heap) 2 1)
                   Sample.grid_call_again) 1.
Proof.
  apply (eval_is_grid_diagonal Sample.ctor_of Sample.eval_of
           (mkArg 0 [] None None) (mkArg 0 [Sample.d5] None None)
           (fun _ => S754_nan) (fun _ => dzero)
           2 2 3 1 Sample.grid_call Sample.grid_call_again 1);
    try lia; try reflexivity; grid_call_recognised.
Defined.

Lemma cell_depends_on_own_coordinates_witness :
  arr_out (final (calc_potential (ext := Sample.lib) 2 3 1) Sample.grid_call) (1 * 3 + 2)
  = arr_out (final (calc_potential (ext := Sample.lib_other_heap) 2 3 1)
                   Sample.grid_call_other) (1 * 3 + 2)
  /\ arr_out (final (eval_potential (ext := Sample.lib) 2 1) Sample.grid_call) 1
     = arr_out (final (eval_potential (ext := Sample.lib_other_heap) 2 1)
                      Sample.grid_call_other) 1.
Proof.
  destruct (cell_depends_on_own_coordinates Sample.ctor_of Sample.eval_of
              (mkArg 0 [] None None) (mkArg 0 [Sample.d5] None None)
              (fun _ => S754_nan) (fun _ => dzero)
              2 3 1 Sample.grid_call Sample.grid_call_other 1 2) as [Hcalc Heval];
    try reflexivity; try lia; try grid_call_recognised.
  split; [apply Hcalc; [reflexivity | lia] | apply Heval; reflexivity].
Defined.

Lemma common_rows_agree_witness :
  arr_out (final (calc_potential (ext := Sample.lib) 2 3 1) Sample.grid_call) (0 * 3 + 2)
  = arr_out (final (calc_potential (ext := Sample.lib_other_heap) 1 3 1) Sample.grid_call)
            (0 * 3 + 2)
  /\ arr_out (final (eval_potential (ext := Sample.lib) 2 1) Sample.grid_call) 0
     = arr_out (final (eval_potential (ext := Sample.lib_other_heap) 1 1) Sample.grid_call) 0.
Proof.
  apply (common_rows_agree Sample.ctor_of Sample.eval_of
           (mkArg 0 [] None None) (mkArg 0 [Sample.d5] None None)
           (fun _ => S754_nan) (fun _ => dzero)
           2 1 3 1 Sample.grid_call 0 2);
    try lia; grid_call_recognised.
Defined.

Lemma second_run_keeps_buffer_witness :
  (let s1 := final (calc_potential (ext := Sample.lib) 2 3 1) Sample.grid_call in
   arr_out (final (calc_potential (ext := Sample.lib_other_heap) 2 3 1) s1) 5
   = arr_out s1 5)
  /\ (let s1 := final (eval_potential (ext := Sample.lib) 2 1) Sample.grid_call in
      arr_out (final (eval_potential (ext := Sample.lib_other_heap) 2 1) s1) 1
      = arr_out s1 1).
Proof.
  split.
  - apply (second_run_keeps_buffer Sample.ctor_of Sample.eval_of
             (mkArg 0 [] None None) (mkArg 0 [Sample.d5] None None)
             (fun _ => S754_nan) (fun _ => dzero)
             2 3 1 Sample.grid_call 5); [lia | grid_call_recognised].
  - apply (second_run_keeps_buffer Sample.ctor_of Sample.eval_of
             (mkArg 0 [] None None) (mkArg 0 [Sample.d5] None None)
             (fun _ => S754_nan) (fun _ => dzero)
             2 3 1 Sample.grid_call 1); [lia | grid_call_recognised].
Defined.
